(** * Smart CGPA Calculator: the grading and planning engine

    A shallow embedding of [frontend/src/lib/SGPAEngine.ts] and of the
    backend's [utils/calculations.ts], with the properties of the engine
    proved over it.

    Numbers.  A JavaScript [number] is embedded as an exact rational [Q]:
    [+], [-], [*], [/] are the field operations, comparisons are the
    boolean comparisons of [Q], [Math.floor] is [Qfloor] and
    [Math.round x] is [floor (x + 1/2)].  Rounding error of IEEE doubles,
    infinities and NaN are outside the model; in particular a division by
    zero, which JavaScript answers with an infinity or NaN, is [0] here, so
    statements are meaningful for configurations with non-zero scales.
    Results are compared with [==] ([Qeq]), the equality of rationals as
    numbers. *)

From Stdlib Require Import QArith Qround Qminmax Qpower Qabs ZArith List String Bool Lia Lqa.
From Stdlib Require Import Permutation Sorted Morphisms.
Import ListNotations.

Local Open Scope Q_scope.

(* ------------------------------------------------------------------ *)
(** ** Type definitions *)

Record GradeBucket := mkBucket {
  bmin : Q;            (* [min]: minimum total marks for this grade *)
  gp : Q;              (* grade point value *)
  label : string
}.

Record Subject := mkSubject {
  code : string;
  name : string;
  cie : Q;
  see : Q;
  credits : Q
}.

Record SubjectResult := mkSubjectResult {
  r_code : string;
  r_name : string;
  r_cie : Q;
  r_see : Q;
  r_seeScaled : Q;
  r_total : Q;
  r_gp : Q;
  r_weighted : Q;
  r_credits : Q
}.

Record SGPAResult := mkSGPAResult {
  subjects : list SubjectResult;
  sgpa : Q;
  totalCredits : Q;
  totalWeighted : Q;
  maxSgpaIfAll100 : Q
}.

Record GradingConfig := mkConfig {
  maxCIE : Q;
  maxSEE : Q;
  roundingDigits : Z;
  buckets : list GradeBucket
}.

Definition DEFAULT_GRADING_CONFIG : GradingConfig :=
  {| maxCIE := 50;
     maxSEE := 100;
     roundingDigits := 2;
     buckets :=
       [ mkBucket 90 10 "O";
         mkBucket 80 9 "A+";
         mkBucket 70 8 "A";
         mkBucket 60 7 "B+";
         mkBucket 50 6 "B";
         mkBucket 40 5 "C";
         mkBucket 0 4 "F" ] |}.

(* ------------------------------------------------------------------ *)
(** ** JavaScript primitives *)

(** [a < b] and [a > b] on numbers. *)
Definition Qlt_bool (a b : Q) : bool := negb (Qle_bool b a).

(** [Math.round]: the nearest integer, halves rounded up. *)
Definition Math_round (x : Q) : Q := inject_Z (Qfloor (x + (1 # 2))).

(** [Math.floor]. *)
Definition Math_floor (x : Q) : Q := inject_Z (Qfloor x).

(** [Array.prototype.sort(cmp)] is a stable sort: an element [x] is placed
    after [y] only when [cmp x y > 0].  For a comparator that is a
    difference of keys every stable sort yields the same array; it is
    computed here by insertion from the right, which keeps the order of
    elements that compare equal. *)
Section JsSort.
Context {A : Type} (cmp : A -> A -> Q).

Fixpoint sort_insert (x : A) (l : list A) : list A :=
  match l with
  | [] => [x]
  | y :: l' =>
      if Qlt_bool 0 (cmp x y) then y :: sort_insert x l' else x :: y :: l'
  end.

Definition js_sort (l : list A) : list A := fold_right sort_insert [] l.
End JsSort.

(** [arr.reduce((sum, r) => sum + f r, 0)]. *)
Definition reduce_sum {A : Type} (f : A -> Q) (l : list A) : Q :=
  fold_left (fun sum r => sum + f r) l 0.

(* ------------------------------------------------------------------ *)
(** ** Core calculation functions *)

Definition scaleSEE (see : Q) (config : GradingConfig) : Q :=
  see / (maxSEE config / maxCIE config).

Definition calculateTotal (cie see : Q) (config : GradingConfig) : Q :=
  cie + scaleSEE see config.

(** The [for ... of] loop over the sorted buckets. *)
Fixpoint gp_scan (total : Q) (sortedBuckets : list GradeBucket) : Q :=
  match sortedBuckets with
  | [] => 0
  | bucket :: rest =>
      if Qle_bool (bmin bucket) total then gp bucket else gp_scan total rest
  end.

Definition sortedBuckets (config : GradingConfig) : list GradeBucket :=
  js_sort (fun a b => bmin b - bmin a) (buckets config).

Definition gpForTotal (total : Q) (config : GradingConfig) : Q :=
  gp_scan total (sortedBuckets config).

Definition calculateWeightedPoints (gp credits : Q) : Q := gp * credits.

Definition roundTo (value : Q) (digits : Z) : Q :=
  let multiplier := Qpower 10 digits in
  Math_round (value * multiplier) / multiplier.

Definition subjectResult (config : GradingConfig) (subject : Subject)
  : SubjectResult :=
  let seeScaled := scaleSEE (see subject) config in
  let total := cie subject + seeScaled in
  let gp := gpForTotal total config in
  let weighted := calculateWeightedPoints gp (credits subject) in
  {| r_code := code subject; r_name := name subject;
     r_cie := cie subject; r_see := see subject;
     r_seeScaled := seeScaled; r_total := total; r_gp := gp;
     r_weighted := weighted; r_credits := credits subject |}.

(** [{ ...s, see: v }]. *)
Definition with_see (s : Subject) (v : Q) : Subject :=
  {| code := code s; name := name s; cie := cie s; see := v;
     credits := credits s |}.

Definition maxWeightedOf (config : GradingConfig) (subject : Subject) : Q :=
  let seeScaled := scaleSEE (see subject) config in
  let total := cie subject + seeScaled in
  let gp := gpForTotal total config in
  calculateWeightedPoints gp (credits subject).

Definition calculateSGPA (subjs : list Subject) (config : GradingConfig)
  : SGPAResult :=
  let results := map (subjectResult config) subjs in
  let totalCredits := reduce_sum r_credits results in
  let totalWeighted := reduce_sum r_weighted results in
  let sgpa :=
    if Qlt_bool 0 totalCredits then totalWeighted / totalCredits else 0 in
  let maxSubjects := map (fun s => with_see s (maxSEE config)) subjs in
  let maxResults := map (maxWeightedOf config) maxSubjects in
  let maxWeighted := reduce_sum (fun w => w) maxResults in
  let maxSgpaIfAll100 :=
    if Qlt_bool 0 totalCredits then maxWeighted / totalCredits else 0 in
  {| subjects := results;
     sgpa := roundTo sgpa (roundingDigits config);
     totalCredits := totalCredits;
     totalWeighted := totalWeighted;
     maxSgpaIfAll100 := roundTo maxSgpaIfAll100 (roundingDigits config) |}.

(* ------------------------------------------------------------------ *)
(** ** Critical SEE calculations *)

Record CriticalSEE := mkCritical {
  cutoffTotal : Q;
  seeCrit : Q;
  c_gp : Q;
  reachable : bool
}.

Definition criticalOf (cie : Q) (config : GradingConfig) (bucket : GradeBucket)
  : CriticalSEE :=
  let cutoffTotal := bmin bucket in
  let seeCrit := (cutoffTotal - cie) * (maxSEE config / maxCIE config) in
  let reachable := Qle_bool 0 seeCrit && Qle_bool seeCrit (maxSEE config) in
  {| cutoffTotal := cutoffTotal;
     seeCrit := Qmax 0 (Qmin (maxSEE config) seeCrit);
     c_gp := gp bucket;
     reachable := reachable |}.

Definition calculateCriticalSEEValues (cie : Q) (config : GradingConfig)
  : list CriticalSEE :=
  js_sort (fun a b => seeCrit a - seeCrit b)
          (map (criticalOf cie config) (buckets config)).

(* ------------------------------------------------------------------ *)
(** ** Planning algorithms *)

(** The outcome of a call: a returned value or a thrown [Error]. *)
Inductive outcome (A : Type) : Type :=
| Returns (a : A)
| Throws (message : string).
Arguments Returns {A} a.
Arguments Throws {A} message.

Record SubjectPlan := mkSubjectPlan {
  p_code : string;
  p_name : string;
  currentSee : Q;
  minSeeToReachTarget : Q;
  achievedSgpa : Q;
  possible : bool;
  marginalGain : Q
}.

Record GlobalPlanStep := mkStep {
  s_code : string;
  s_name : string;
  fromSee : Q;
  toSee : Q;
  increaseSeeBy : Q;
  sgpaAfter : Q
}.

Record GlobalPlan := mkGlobalPlan {
  steps : list GlobalPlanStep;
  finalSgpa : Q;
  targetReached : bool;
  bestAttainableSgpa : Q
}.

(** [subjects.findIndex(s => s.code === c)]; [None] stands for [-1]. *)
Fixpoint findIndex {A : Type} (p : A -> bool) (l : list A) : option nat :=
  match l with
  | [] => None
  | x :: l' =>
      if p x then Some O
      else match findIndex p l' with
           | Some i => Some (S i)
           | None => None
           end
  end.

(** [arr.map((s, idx) => idx === i ? f s : s)]. *)
Fixpoint map_at {A : Type} (f : A -> A) (i : nat) (l : list A) : list A :=
  match l, i with
  | [], _ => []
  | x :: l', O => f x :: l'
  | x :: l', S i' => x :: map_at f i' l'
  end.

(** The SGPA of the semester when the subject at [targetIndex] has its
    SEE replaced by [v]: one probe of the search. *)
Definition probe_sgpa (subjs : list Subject) (targetIndex : nat)
  (config : GradingConfig) (v : Q) : Q :=
  sgpa (calculateSGPA (map_at (fun s => with_see s v) targetIndex subjs) config).

Record search_state := mkSearch {
  left : Q;
  right : Q;
  minSee : Q;
  achieved : Q
}.

(** The [while (left <= right)] loop of the binary search, run for at most
    [fuel] iterations; [search_loop_exits] below shows that the fuel given
    by [search_fuel] is never used up. *)
Fixpoint search_loop (fuel : nat) (probe : Q -> Q) (targetSgpa : Q)
  (st : search_state) : search_state :=
  match fuel with
  | O => st
  | S fuel' =>
      if Qle_bool (left st) (right st) then
        let mid := Math_floor ((left st + right st) / 2) in
        let result := probe mid in
        if Qle_bool targetSgpa result then
          search_loop fuel' probe targetSgpa
            {| left := left st; right := mid - 1;
               minSee := mid; achieved := result |}
        else
          search_loop fuel' probe targetSgpa
            {| left := mid + 1; right := right st;
               minSee := minSee st; achieved := achieved st |}
      else st
  end.

Definition search_fuel (l r : Q) : nat :=
  Z.to_nat (Qfloor r - Qfloor l + 1).

Definition not_found_message (c : string) : string :=
  ("Subject " ++ c ++ " not found")%string.

Definition findMinimalSEEForTarget (subjs : list Subject)
  (targetSubjectCode : string) (targetSgpa : Q) (config : GradingConfig)
  : outcome SubjectPlan :=
  match findIndex (fun s => String.eqb (code s) targetSubjectCode) subjs with
  | None => Throws (not_found_message targetSubjectCode)
  | Some targetIndex =>
      match nth_error subjs targetIndex with
      | None => Throws (not_found_message targetSubjectCode)
      | Some currentSubject =>
          let currentSee := see currentSubject in
          let currentResult := calculateSGPA subjs config in
          let testSubjects :=
            map_at (fun s => with_see s (Qmin (see s + 1) (maxSEE config)))
                   targetIndex subjs in
          let testResult := calculateSGPA testSubjects config in
          let marginalGain := sgpa testResult - sgpa currentResult in
          if Qle_bool targetSgpa (sgpa currentResult) then
            Returns {| p_code := code currentSubject;
                       p_name := name currentSubject;
                       currentSee := currentSee;
                       minSeeToReachTarget := currentSee;
                       achievedSgpa := sgpa currentResult;
                       possible := true;
                       marginalGain := marginalGain |}
          else
            let st :=
              search_loop (search_fuel currentSee (maxSEE config))
                (probe_sgpa subjs targetIndex config) targetSgpa
                {| left := currentSee; right := maxSEE config;
                   minSee := -1; achieved := sgpa currentResult |} in
            Returns {| p_code := code currentSubject;
                       p_name := name currentSubject;
                       currentSee := currentSee;
                       minSeeToReachTarget := minSee st;
                       achievedSgpa := achieved st;
                       possible := negb (Qeq_bool (minSee st) (-1));
                       marginalGain := marginalGain |}
      end
  end.

(** One pass of the [for] loop that picks the subject with the largest
    marginal gain: [best] is [(bestSubjectIndex, bestMarginalGain)], with
    [None] for the index [-1]. *)
Definition marginal_step (ws : list Subject) (currentSgpa : Q)
  (config : GradingConfig) (best : option nat * Q) (i : nat)
  : option nat * Q :=
  match nth_error ws i with
  | None => best
  | Some wi =>
      if Qle_bool (maxSEE config) (see wi) then best
      else
        let testSubjects :=
          map_at (fun s => with_see s (Qmin (see s + 1) (maxSEE config))) i ws in
        let testResult := calculateSGPA testSubjects config in
        let marginalGain := sgpa testResult - currentSgpa in
        if Qlt_bool (snd best) marginalGain then (Some i, marginalGain)
        else best
  end.

Definition best_subject (ws : list Subject) (currentSgpa : Q)
  (config : GradingConfig) : option nat :=
  fst (fold_left (marginal_step ws currentSgpa config)
                 (seq 0 (List.length ws)) (None, 0)).

(** The SEE the selected subject is raised to. *)
Definition next_see (subject : Subject) (config : GradingConfig) : Q :=
  let criticals := calculateCriticalSEEValues (cie subject) config in
  let nextCritical :=
    find (fun c => Qlt_bool (see subject) (seeCrit c) && reachable c) criticals in
  match nextCritical with
  | Some c => Qmin (seeCrit c) (maxSEE config)
  | None => Qmin (see subject + 1) (maxSEE config)
  end.

Record greedy_state := mkGreedy {
  workingSubjects : list Subject;
  g_steps : list GlobalPlanStep;
  currentResult : SGPAResult;
  iterations : nat
}.

Definition maxIterations : nat := 1000.

(** The [while] loop of the greedy planner.  The loop is guarded by
    [iterations < maxIterations] and every pass increments [iterations], so
    [maxIterations] units of fuel are never used up before the guard
    fails ([greedy_loop_exits] below). *)
Fixpoint greedy_loop (fuel : nat) (targetSgpa : Q) (config : GradingConfig)
  (st : greedy_state) : greedy_state :=
  match fuel with
  | O => st
  | S fuel' =>
      if Qlt_bool (sgpa (currentResult st)) targetSgpa
         && (iterations st <? maxIterations)%nat then
        let iterations' := S (iterations st) in
        let ws := workingSubjects st in
        let allAtMax := forallb (fun s => Qle_bool (maxSEE config) (see s)) ws in
        if allAtMax then
          {| workingSubjects := ws; g_steps := g_steps st;
             currentResult := currentResult st; iterations := iterations' |}
        else
          match best_subject ws (sgpa (currentResult st)) config with
          | None =>
              {| workingSubjects := ws; g_steps := g_steps st;
                 currentResult := currentResult st; iterations := iterations' |}
          | Some bestSubjectIndex =>
              match nth_error ws bestSubjectIndex with
              | None =>
                  {| workingSubjects := ws; g_steps := g_steps st;
                     currentResult := currentResult st;
                     iterations := iterations' |}
              | Some subject =>
                  let fromSee := see subject in
                  let toSee := next_see subject config in
                  let ws' :=
                    map_at (fun s => with_see s toSee) bestSubjectIndex ws in
                  let currentResult' := calculateSGPA ws' config in
                  let step :=
                    {| s_code := code subject; s_name := name subject;
                       fromSee := fromSee; toSee := toSee;
                       increaseSeeBy := toSee - fromSee;
                       sgpaAfter := sgpa currentResult' |} in
                  let st' :=
                    {| workingSubjects := ws';
                       g_steps := g_steps st ++ [step];
                       currentResult := currentResult';
                       iterations := iterations' |} in
                  if Qle_bool targetSgpa (sgpa currentResult') then st'
                  else greedy_loop fuel' targetSgpa config st'
              end
          end
      else st
  end.

(** The planner's state when its loop is left. *)
Definition greedy_init (subjs : list Subject) (config : GradingConfig)
  : greedy_state :=
  let workingSubjects := map (fun s => s) subjs in   (* [{ ...s }] *)
  {| workingSubjects := workingSubjects; g_steps := [];
     currentResult := calculateSGPA workingSubjects config;
     iterations := 0 |}.

Definition greedy_final (subjs : list Subject) (targetSgpa : Q)
  (config : GradingConfig) : greedy_state :=
  greedy_loop maxIterations targetSgpa config (greedy_init subjs config).

Definition greedyGlobalPlan (subjs : list Subject) (targetSgpa : Q)
  (config : GradingConfig) : GlobalPlan :=
  let st := greedy_final subjs targetSgpa config in
  let maxSubjects := map (fun s => with_see s (maxSEE config)) subjs in
  let maxResult := calculateSGPA maxSubjects config in
  {| steps := g_steps st;
     finalSgpa := sgpa (currentResult st);
     targetReached := Qle_bool targetSgpa (sgpa (currentResult st));
     bestAttainableSgpa := sgpa maxResult |}.

(* ------------------------------------------------------------------ *)
(** ** Grade bands and analysis *)

(** [arr[arr.length - 1]]; [None] is [undefined], on the empty array. *)
Fixpoint last_element {A : Type} (l : list A) : option A :=
  match l with
  | [] => None
  | [x] => Some x
  | _ :: l' => last_element l'
  end.

(** [bucket || config.buckets[config.buckets.length - 1]]. *)
Definition getGradeBandForSEE (cie see : Q) (config : GradingConfig)
  : option GradeBucket :=
  let total := calculateTotal cie see config in
  let gp' := gpForTotal total config in
  let bucket := find (fun b => Qeq_bool (gp b) gp') (buckets config) in
  match bucket with
  | Some b => Some b
  | None => last_element (buckets config)
  end.

(** [arr.map((x, index) => f index x)]. *)
Fixpoint mapi_from {A B : Type} (f : nat -> A -> B) (i : nat) (l : list A)
  : list B :=
  match l with
  | [] => []
  | x :: l' => f i x :: mapi_from f (S i) l'
  end.

Definition mapi {A B : Type} (f : nat -> A -> B) (l : list A) : list B :=
  mapi_from f 0 l.

Record MarginalGain := mkMarginalGain {
  m_code : string;
  m_name : string;
  m_marginalGain : Q
}.

Definition calculateMarginalGains (subjs : list Subject)
  (config : GradingConfig) : list MarginalGain :=
  let currentResult := calculateSGPA subjs config in
  mapi (fun index subject =>
          if Qle_bool (maxSEE config) (see subject) then
            {| m_code := code subject; m_name := name subject;
               m_marginalGain := 0 |}
          else
            let testSubjects :=
              map_at (fun s => with_see s (Qmin (see s + 1) (maxSEE config)))
                     index subjs in
            let testResult := calculateSGPA testSubjects config in
            let marginalGain := sgpa testResult - sgpa currentResult in
            {| m_code := code subject; m_name := name subject;
               m_marginalGain :=
                 roundTo marginalGain (roundingDigits config + 2) |})
       subjs.

(** [for (let x = start; x <= max; x += step) acc = body x acc], run for at
    most [fuel] passes.  [None] means that the loop is still running when
    the fuel is used up: with [step <= 0] it never ends. *)
Fixpoint for_upto {A : Type} (fuel : nat) (step maxv : Q)
  (body : Q -> A -> option A) (x : Q) (acc : A) : option A :=
  match fuel with
  | O => None
  | S fuel' =>
      if Qle_bool x maxv then
        match body x acc with
        | Some acc' => for_upto fuel' step maxv body (x + step) acc'
        | None => None
        end
      else Some acc
  end.

Record CurvePoint := mkCurvePoint {
  cp_see : Q;
  cp_sgpa : Q;
  cp_gp : Q
}.

(** The point pushed by one pass of the loop of [generateSGPACurve]. *)
Definition curve_point (subjs : list Subject) (targetIndex : nat)
  (targetCie : Q) (config : GradingConfig) (see : Q) : CurvePoint :=
  let modifiedSubjects := map_at (fun s => with_see s see) targetIndex subjs in
  let result := calculateSGPA modifiedSubjects config in
  let total := calculateTotal targetCie see config in
  let gp := gpForTotal total config in
  {| cp_see := see; cp_sgpa := sgpa result; cp_gp := gp |}.

Definition generateSGPACurve (fuel : nat) (subjs : list Subject)
  (targetSubjectCode : string) (step : Q) (config : GradingConfig)
  : option (list CurvePoint) :=
  match findIndex (fun s => String.eqb (code s) targetSubjectCode) subjs with
  | None => Some []
  | Some targetIndex =>
      match nth_error subjs targetIndex with
      | None => Some []
      | Some target =>
          for_upto fuel step (maxSEE config)
            (fun see curve =>
               Some (curve ++ [curve_point subjs targetIndex (cie target)
                                           config see]))
            0 []
      end
  end.

Record HeatmapCell := mkHeatmapCell {
  h_seeA : Q;
  h_seeB : Q;
  h_sgpa : Q
}.

(** [subjects.map((s, i) => i === indexA ? { ...s, see: seeA }
                          : i === indexB ? { ...s, see: seeB } : s)]. *)
Definition with_pair (indexA indexB : nat) (seeA seeB : Q)
  (subjs : list Subject) : list Subject :=
  mapi (fun i s =>
          if (i =? indexA)%nat then with_see s seeA
          else if (i =? indexB)%nat then with_see s seeB
          else s) subjs.

Definition generatePairwiseHeatmap (fuel : nat) (subjs : list Subject)
  (subjectCodeA subjectCodeB : string) (step : Q) (config : GradingConfig)
  : option (list HeatmapCell) :=
  match findIndex (fun s => String.eqb (code s) subjectCodeA) subjs,
        findIndex (fun s => String.eqb (code s) subjectCodeB) subjs with
  | Some indexA, Some indexB =>
      for_upto fuel step (maxSEE config)
        (fun seeA heatmap =>
           for_upto fuel step (maxSEE config)
             (fun seeB heatmap =>
                let modifiedSubjects :=
                  with_pair indexA indexB seeA seeB subjs in
                let result := calculateSGPA modifiedSubjects config in
                Some (heatmap ++ [{| h_seeA := seeA; h_seeB := seeB;
                                     h_sgpa := sgpa result |}]))
             0 heatmap)
        0 []
  | _, _ => Some []
  end.

(* ------------------------------------------------------------------ *)
(** ** Validation *)

Record validation := mkValidation {
  valid : bool;
  errors : list string
}.

(** [`${n}`] for the numbers of a configuration; only the presence of a
    message matters to the properties below, so the digits are abstracted. *)
Section Validate.
Variable show : Q -> string.

(** [!s] for a string: the empty string is the only falsy one. *)
Definition falsy (s : string) : bool := String.eqb s "".

Definition validateSubject (subject : Subject) (config : GradingConfig)
  : validation :=
  let errors := [] in
  let errors :=
    if Qlt_bool (cie subject) 0 || Qlt_bool (maxCIE config) (cie subject)
    then errors ++ [("CIE must be between 0 and " ++ show (maxCIE config))%string]
    else errors in
  let errors :=
    if Qlt_bool (see subject) 0 || Qlt_bool (maxSEE config) (see subject)
    then errors ++ [("SEE must be between 0 and " ++ show (maxSEE config))%string]
    else errors in
  let errors :=
    if Qle_bool (credits subject) 0
    then errors ++ ["Credits must be positive"%string]
    else errors in
  let errors :=
    if falsy (code subject) || falsy (name subject)
    then errors ++ ["Subject code and name are required"%string]
    else errors in
  {| valid := (List.length errors =? 0)%nat; errors := errors |}.
End Validate.

(* ------------------------------------------------------------------ *)
(** ** The backend's calculation utilities *)

Module Backend.

Record Subject := mkSubject {
  credits : Q;
  cie : Q;
  see : Q
}.

Record Semester := mkSemester {
  id : string;
  name : string;
  subjects : list Subject
}.

Record ComputedSubjectMetrics := mkMetrics {
  total : Q;
  gp : Q;
  weighted : Q
}.

Definition scaleSee (see : Q) : Q := see / 2.

Definition getGradePoint (total : Q) : Q :=
  if Qle_bool 90 total then 10
  else if Qle_bool 80 total then 9
  else if Qle_bool 70 total then 8
  else if Qle_bool 60 total then 7
  else if Qle_bool 50 total then 6
  else if Qle_bool 40 total then 5
  else 4.

Definition computeSubjectMetrics (cie see credits : Q)
  : ComputedSubjectMetrics :=
  let total := cie + scaleSee see in
  let gp := getGradePoint total in
  let weighted := gp * credits in
  {| total := total; gp := gp; weighted := weighted |}.

Definition round2 (n : Q) : Q := Math_round (n * 100) / 100.

(** [x ? a : b] on a number: zero is the falsy number. *)
Definition truthy (x : Q) : bool := negb (Qeq_bool x 0).

Record SGPA := mkSGPA {
  sgpa : Q;
  totalCredits : Q;
  totalWeighted : Q;
  maxSgpaIfAll100 : Q
}.

Definition aggregateSGPA (subjs : list Subject) : SGPA :=
  let detailed :=
    map (fun s =>
           let m := computeSubjectMetrics (cie s) (see s) (credits s) in
           (gp m, weighted m, credits s)) subjs in
  let totalCredits := reduce_sum (fun b => snd b) detailed in
  let totalWeighted := reduce_sum (fun b => snd (fst b)) detailed in
  let sgpa := if truthy totalCredits then totalWeighted / totalCredits else 0 in
  let maxWeighted :=
    fold_left (fun sum s =>
                 let maxTotal := cie s + scaleSee 100 in
                 let maxGp := getGradePoint maxTotal in
                 sum + maxGp * credits s) subjs 0 in
  let maxSgpaIfAll100 :=
    if truthy totalCredits then maxWeighted / totalCredits else 0 in
  {| sgpa := round2 sgpa;
     totalCredits := totalCredits;
     totalWeighted := round2 totalWeighted;
     maxSgpaIfAll100 := round2 maxSgpaIfAll100 |}.

Record SemesterBreakdown := mkBreakdown {
  semesterId : string;
  b_name : string;
  b_sgpa : Q;
  b_credits : Q
}.

Record CGPA := mkCGPA {
  cgpa : Q;
  c_totalCredits : Q;
  semesterBreakdown : list SemesterBreakdown
}.

Definition breakdownOf (sem : Semester) : SemesterBreakdown :=
  let r := aggregateSGPA (subjects sem) in
  {| semesterId := id sem; b_name := name sem;
     b_sgpa := sgpa r; b_credits := totalCredits r |}.

Definition aggregateCGPA (semesters : list Semester) : CGPA :=
  let semesterBreakdown := map breakdownOf semesters in
  let totalCredits := reduce_sum b_credits semesterBreakdown in
  let weightedSum :=
    reduce_sum (fun b => b_sgpa b * b_credits b) semesterBreakdown in
  let cgpa := if truthy totalCredits then weightedSum / totalCredits else 0 in
  {| cgpa := round2 cgpa;
     c_totalCredits := totalCredits;
     semesterBreakdown := semesterBreakdown |}.

End Backend.

(* ------------------------------------------------------------------ *)
(** ** The engine over a store of objects

    [Subject] values are JavaScript objects: the functions receive
    references, and [workingSubjects[i].see = toSee] writes to the object a
    reference points to.  To state what a call may change, the functions
    are given a second time over an explicit store: a heap of [Subject]
    objects addressed by location, on which [{ ...s }] allocates a new
    object, a field access reads one and the assignment to [see] updates
    one in place.  An array of subjects is a list of locations; the only
    arrays the engine updates in place ([steps], [criticals], the sorted
    copies) are created inside the call, so arrays are kept as values.
    Result records ([SubjectResult], plans, steps) are built from numbers
    and strings and are kept as values too. *)
Module Store.

Definition loc := nat.
Definition heap := list Subject.

Definition deref (h : heap) (l : loc) : Subject :=
  nth l h (mkSubject "" "" 0 0 0).

(** A computation over the store. *)
Definition M (A : Type) : Type := heap -> A * heap.

Definition ret {A} (a : A) : M A := fun h => (a, h).

Definition bind {A B} (m : M A) (k : A -> M B) : M B :=
  fun h => let (a, h') := m h in k a h'.

Notation "x <- m ;; k" := (bind m (fun x => k))
  (at level 61, m at next level, right associativity).
Notation "m ;;; k" := (bind m (fun _ => k))
  (at level 61, right associativity).

(** [{ ...s }], possibly with a field replaced: a new object. *)
Definition alloc (s : Subject) : M loc :=
  fun h => (List.length h, h ++ [s]).

(** Reading the fields of the object at [l]. *)
Definition read (l : loc) : M Subject := fun h => (deref h l, h).

(** [o.see = v] on the object at [l]. *)
Definition write_see (l : loc) (v : Q) : M unit :=
  fun h => (tt, map_at (fun s => with_see s v) l h).

Fixpoint mapM {A B} (f : A -> M B) (l : list A) : M (list B) :=
  match l with
  | [] => ret []
  | x :: l' => y <- f x ;; ys <- mapM f l' ;; ret (y :: ys)
  end.

Definition read_all (arr : list loc) : M (list Subject) := mapM read arr.

(** [arr.map(s => ({ ...s, ... }))]: every element is copied. *)
Definition copy_all (f : Subject -> Subject) (arr : list loc) : M (list loc) :=
  mapM (fun l => s <- read l ;; alloc (f s)) arr.

(** [arr.map((s, idx) => idx === i ? { ...s, see: ... } : s)]: the
    element at [i] is copied, the others are shared with [arr]. *)
Fixpoint copy_at (f : Subject -> Subject) (i : nat) (arr : list loc)
  : M (list loc) :=
  match arr, i with
  | [], _ => ret []
  | l :: arr', O => s <- read l ;; l' <- alloc (f s) ;; ret (l' :: arr')
  | l :: arr', S i' => rest <- copy_at f i' arr' ;; ret (l :: rest)
  end.

(** The result of [calculateSGPA] from the fields read off [subjects]
    and off [maxSubjects]. *)
Definition sgpa_result (config : GradingConfig) (ss ms : list Subject)
  : SGPAResult :=
  let results := map (subjectResult config) ss in
  let totalCredits := reduce_sum r_credits results in
  let totalWeighted := reduce_sum r_weighted results in
  let sgpa :=
    if Qlt_bool 0 totalCredits then totalWeighted / totalCredits else 0 in
  let maxResults := map (maxWeightedOf config) ms in
  let maxWeighted := reduce_sum (fun w => w) maxResults in
  let maxSgpaIfAll100 :=
    if Qlt_bool 0 totalCredits then maxWeighted / totalCredits else 0 in
  {| subjects := results;
     sgpa := roundTo sgpa (roundingDigits config);
     totalCredits := totalCredits;
     totalWeighted := totalWeighted;
     maxSgpaIfAll100 := roundTo maxSgpaIfAll100 (roundingDigits config) |}.

Definition calculateSGPA (arr : list loc) (config : GradingConfig)
  : M SGPAResult :=
  ss <- read_all arr ;;
  maxSubjects <- copy_all (fun s => with_see s (maxSEE config)) arr ;;
  ms <- read_all maxSubjects ;;
  ret (sgpa_result config ss ms).

Fixpoint search_loop (fuel : nat) (arr : list loc) (targetIndex : nat)
  (config : GradingConfig) (targetSgpa : Q) (st : search_state)
  : M search_state :=
  match fuel with
  | O => ret st
  | S fuel' =>
      if Qle_bool (left st) (right st) then
        let mid := Math_floor ((left st + right st) / 2) in
        modifiedSubjects <- copy_at (fun s => with_see s mid) targetIndex arr ;;
        result <- calculateSGPA modifiedSubjects config ;;
        if Qle_bool targetSgpa (sgpa result) then
          search_loop fuel' arr targetIndex config targetSgpa
            {| left := left st; right := mid - 1;
               minSee := mid; achieved := sgpa result |}
        else
          search_loop fuel' arr targetIndex config targetSgpa
            {| left := mid + 1; right := right st;
               minSee := minSee st; achieved := achieved st |}
      else ret st
  end.

Definition findMinimalSEEForTarget (arr : list loc)
  (targetSubjectCode : string) (targetSgpa : Q) (config : GradingConfig)
  : M (outcome SubjectPlan) :=
  ss <- read_all arr ;;
  match findIndex (fun s => String.eqb (code s) targetSubjectCode) ss with
  | None => ret (Throws (not_found_message targetSubjectCode))
  | Some targetIndex =>
      match nth_error arr targetIndex with
      | None => ret (Throws (not_found_message targetSubjectCode))
      | Some currentLoc =>
          currentSubject <- read currentLoc ;;
          let currentSee := see currentSubject in
          currentResult <- calculateSGPA arr config ;;
          testSubjects <-
            copy_at (fun s => with_see s (Qmin (see s + 1) (maxSEE config)))
                    targetIndex arr ;;
          testResult <- calculateSGPA testSubjects config ;;
          let marginalGain := sgpa testResult - sgpa currentResult in
          if Qle_bool targetSgpa (sgpa currentResult) then
            ret (Returns {| p_code := code currentSubject;
                            p_name := name currentSubject;
                            currentSee := currentSee;
                            minSeeToReachTarget := currentSee;
                            achievedSgpa := sgpa currentResult;
                            possible := true;
                            marginalGain := marginalGain |})
          else
            st <- search_loop (search_fuel currentSee (maxSEE config))
                    arr targetIndex config targetSgpa
                    {| left := currentSee; right := maxSEE config;
                       minSee := -1; achieved := sgpa currentResult |} ;;
            ret (Returns {| p_code := code currentSubject;
                            p_name := name currentSubject;
                            currentSee := currentSee;
                            minSeeToReachTarget := minSee st;
                            achievedSgpa := achieved st;
                            possible := negb (Qeq_bool (minSee st) (-1));
                            marginalGain := marginalGain |})
      end
  end.

Definition marginal_step (working : list loc) (currentSgpa : Q)
  (config : GradingConfig) (best : option nat * Q) (i : nat)
  : M (option nat * Q) :=
  match nth_error working i with
  | None => ret best
  | Some li =>
      wi <- read li ;;
      if Qle_bool (maxSEE config) (see wi) then ret best
      else
        testSubjects <-
          copy_at (fun s => with_see s (Qmin (see s + 1) (maxSEE config)))
                  i working ;;
        testResult <- calculateSGPA testSubjects config ;;
        let marginalGain := sgpa testResult - currentSgpa in
        if Qlt_bool (snd best) marginalGain then ret (Some i, marginalGain)
        else ret best
  end.

Fixpoint foldM {A B} (f : A -> B -> M A) (l : list B) (a : A) : M A :=
  match l with
  | [] => ret a
  | x :: l' => a' <- f a x ;; foldM f l' a'
  end.

Definition best_subject (working : list loc) (currentSgpa : Q)
  (config : GradingConfig) : M (option nat) :=
  r <- foldM (marginal_step working currentSgpa config)
             (seq 0 (List.length working)) (None, 0) ;;
  ret (fst r).

(** The variables of the planner's loop; [workingSubjects] is an array
    of references that is never reassigned. *)
Record greedy_vars := mkVars {
  v_steps : list GlobalPlanStep;
  v_currentResult : SGPAResult;
  v_iterations : nat
}.

Fixpoint greedy_loop (fuel : nat) (working : list loc) (targetSgpa : Q)
  (config : GradingConfig) (st : greedy_vars) : M greedy_vars :=
  match fuel with
  | O => ret st
  | S fuel' =>
      if Qlt_bool (sgpa (v_currentResult st)) targetSgpa
         && (v_iterations st <? maxIterations)%nat then
        let iterations' := S (v_iterations st) in
        let stop :=
          {| v_steps := v_steps st; v_currentResult := v_currentResult st;
             v_iterations := iterations' |} in
        ws <- read_all working ;;
        let allAtMax :=
          forallb (fun s => Qle_bool (maxSEE config) (see s)) ws in
        if allAtMax then ret stop
        else
          best <- best_subject working (sgpa (v_currentResult st)) config ;;
          match best with
          | None => ret stop
          | Some bestSubjectIndex =>
              match nth_error working bestSubjectIndex with
              | None => ret stop
              | Some subjectLoc =>
                  subject <- read subjectLoc ;;
                  let fromSee := see subject in
                  let toSee := next_see subject config in
                  write_see subjectLoc toSee ;;;
                  currentResult' <- calculateSGPA working config ;;
                  subject' <- read subjectLoc ;;
                  let step :=
                    {| s_code := code subject'; s_name := name subject';
                       fromSee := fromSee; toSee := toSee;
                       increaseSeeBy := toSee - fromSee;
                       sgpaAfter := sgpa currentResult' |} in
                  let st' :=
                    {| v_steps := v_steps st ++ [step];
                       v_currentResult := currentResult';
                       v_iterations := iterations' |} in
                  if Qle_bool targetSgpa (sgpa currentResult') then ret st'
                  else greedy_loop fuel' working targetSgpa config st'
              end
          end
      else ret st
  end.

Definition greedyGlobalPlan (arr : list loc) (targetSgpa : Q)
  (config : GradingConfig) : M GlobalPlan :=
  workingSubjects <- copy_all (fun s => s) arr ;;
  currentResult <- calculateSGPA workingSubjects config ;;
  st <- greedy_loop maxIterations workingSubjects targetSgpa config
          {| v_steps := []; v_currentResult := currentResult;
             v_iterations := 0 |} ;;
  maxSubjects <- copy_all (fun s => with_see s (maxSEE config)) arr ;;
  maxResult <- calculateSGPA maxSubjects config ;;
  ret {| steps := v_steps st;
         finalSgpa := sgpa (v_currentResult st);
         targetReached := Qle_bool targetSgpa (sgpa (v_currentResult st));
         bestAttainableSgpa := sgpa maxResult |}.

End Store.

(* ------------------------------------------------------------------ *)
(** ** The slider's snapping ([SubjectSlider], [handleSeeChange]) *)

Definition SNAP_THRESHOLD : Q := 1.

(** The [for ... of] loop over the critical values, with its [continue]
    and [break]: the mark the slider is drawn to. *)
Fixpoint snap_target (criticalValues : list CriticalSEE) (newSee : Q) : Q :=
  match criticalValues with
  | [] => newSee
  | c :: rest =>
      if negb (reachable c) then snap_target rest newSee
      else
        let diff := Qabs (seeCrit c - newSee) in
        if Qle_bool diff SNAP_THRESHOLD then seeCrit c
        else snap_target rest newSee
  end.

(** The value [handleSeeChange newSee] passes to [onSeeChange]. *)
Definition handleSeeChange (cie : Q) (config : GradingConfig) (newSee : Q)
  : Q :=
  let criticalValues := calculateCriticalSEEValues cie config in
  let target := snap_target criticalValues newSee in
  Qmax 0 (Qmin (maxSEE config) (Math_round target)).

(* ------------------------------------------------------------------ *)
(** ** Vocabulary of the properties *)

Definition desc (a b : GradeBucket) : Prop := bmin b <= bmin a.

(** The sum of a list of numbers, as the formulas of the specification
    write it. *)
Definition Qsum (l : list Q) : Q := fold_right Qplus 0 l.

(** The grade point of a subject: [gpForTotal] of its total. *)
Definition gradePoint (config : GradingConfig) (s : Subject) : Q :=
  gpForTotal (calculateTotal (cie s) (see s) config) config.

(** [gpForTotal], [calculateSGPA] and [greedyGlobalPlan] contain no [throw]
    statement: a call to one of them always returns. *)
Definition gpForTotal_call (total : Q) (config : GradingConfig) : outcome Q :=
  Returns (gpForTotal total config).

Definition calculateSGPA_call (subjs : list Subject) (config : GradingConfig)
  : outcome SGPAResult :=
  Returns (calculateSGPA subjs config).

Definition greedyGlobalPlan_call (subjs : list Subject) (targetSgpa : Q)
  (config : GradingConfig) : outcome GlobalPlan :=
  Returns (greedyGlobalPlan subjs targetSgpa config).

Definition no_floor_config : GradingConfig :=
  {| maxCIE := 50; maxSEE := 100; roundingDigits := 2;
     buckets := [mkBucket 40 5 "C"] |}.

Definition violates (config : GradingConfig) (s : Subject) : Prop :=
  cie s < 0 \/ maxCIE config < cie s \/
  see s < 0 \/ maxSEE config < see s \/
  credits s <= 0 \/
  code s = ""%string \/ name s = ""%string.

Definition negative_cie_subject : Subject := mkSubject "S1" "First" (-5) 60 4.

Definition semester_sgpa (sem : Backend.Semester) : Q :=
  Backend.sgpa (Backend.aggregateSGPA (Backend.subjects sem)).

Definition semester_credits (sem : Backend.Semester) : Q :=
  Backend.totalCredits (Backend.aggregateSGPA (Backend.subjects sem)).

Definition two_semesters : list Backend.Semester :=
  [ Backend.mkSemester "1" "Autumn"
      [Backend.mkSubject 4 40 60; Backend.mkSubject 3 45 80];
    Backend.mkSemester "2" "Spring" [Backend.mkSubject 4 50 100] ].

Definition is_int (x : Q) : Prop := exists z : Z, x == inject_Z z.

(** A subject as the backend stores it. *)
Definition to_backend (s : Subject) : Backend.Subject :=
  Backend.mkSubject (credits s) (cie s) (see s).

(** Valid input of the comparison: marks in range, positive integer
    credits. *)
Definition valid_marks_credits (s : Subject) : Prop :=
  0 <= cie s <= 50 /\ 0 <= see s <= 100 /\
  exists n : Z, (0 < n)%Z /\ credits s == inject_Z n.

(** Grade points do not decrease with [min]. *)
Definition monotone_buckets (config : GradingConfig) : Prop :=
  forall b1 b2, In b1 (buckets config) -> In b2 (buckets config) ->
    bmin b1 <= bmin b2 -> gp b1 <= gp b2.

(** Some bucket of the table has [min <= t]. *)
Definition covered (config : GradingConfig) (t : Q) : Prop :=
  exists b, In b (buckets config) /\ bmin b <= t.

(** [s'] has the credits of [s] and at least its weighted points. *)
Definition weighted_le (config : GradingConfig) (s s' : Subject) : Prop :=
  credits s = credits s' /\
  gradePoint config s * credits s <= gradePoint config s' * credits s'.

Definition falling_config : GradingConfig :=
  {| maxCIE := 50; maxSEE := 100; roundingDigits := 2;
     buckets := [mkBucket 0 10 "Low"; mkBucket 50 4 "High"] |}.

Definition falling_subject : Subject := mkSubject "S1" "First" 40 0 1.

(** The probe at the integer mark [z] reaches the target. *)
Definition reaches (probe : Q -> Q) (targetSgpa : Q) (z : Z) : Prop :=
  targetSgpa <= probe (inject_Z z).

(** What holds between two passes of the search loop over the marks
    [lo .. hi]: [left] is the integer [L], [right] has floor [R], no mark
    below [L] reaches the target, and [minSee] is [R + 1] as soon as
    [right] has moved. *)
Definition search_inv (probe : Q -> Q) (targetSgpa : Q) (lo hi : Z)
  (st : search_state) (L R : Z) : Prop :=
  left st == inject_Z L /\ Qfloor (right st) = R /\
  (lo <= L)%Z /\ (R <= hi)%Z /\ (L <= R + 1)%Z /\
  (forall z, (lo <= z < L)%Z -> ~ reaches probe targetSgpa z) /\
  ((R = hi /\ minSee st = -1) \/
   ((R < hi)%Z /\ minSee st = inject_Z (R + 1) /\
    reaches probe targetSgpa (R + 1)
    /\ achieved st = probe (inject_Z (R + 1)))).

(** What the search has found when its loop is left. *)
Definition search_post (probe : Q -> Q) (targetSgpa : Q) (lo hi : Z)
  (st : search_state) : Prop :=
  (minSee st = -1 /\
   forall z, (lo <= z <= hi)%Z -> ~ reaches probe targetSgpa z)
  \/ (exists m, minSee st = inject_Z m /\ (lo <= m <= hi)%Z /\
        reaches probe targetSgpa m /\
        (forall z, (lo <= z < m)%Z -> ~ reaches probe targetSgpa z) /\
        achieved st = probe (inject_Z m)).

(** The numeric constraints of a subject, as [validateSubject] checks
    them. *)
Definition valid_subject (config : GradingConfig) (s : Subject) : Prop :=
  0 <= cie s <= maxCIE config /\
  0 <= see s <= maxSEE config /\
  0 < credits s.

Definition integer_marks (s : Subject) : Prop :=
  is_int (cie s) /\ is_int (see s).

(** Every reference of the array points into the store. *)
Definition in_store (h : Store.heap) (arr : list Store.loc) : Prop :=
  Forall (fun l => (l < List.length h)%nat) arr.

(** The subjects an array of references denotes. *)
Definition values (h : Store.heap) (arr : list Store.loc) : list Subject :=
  map (Store.deref h) arr.

(** The loop variables together with the subjects the working array
    denotes: the state of the pure loop. *)
Definition pure_state (vars : Store.greedy_vars) (ws : list Subject)
  : greedy_state :=
  {| workingSubjects := ws;
     g_steps := Store.v_steps vars;
     currentResult := Store.v_currentResult vars;
     iterations := Store.v_iterations vars |}.

(** The store after a call: the store before it, followed by the objects
    the call allocated; the array passed in denotes the same subjects. *)
Definition leaves_inputs {A} (m : Store.M A) (h : Store.heap)
  (arr : list Store.loc) (result : A) : Prop :=
  exists h',
    m h = (result, h') /\
    (exists allocated, h' = h ++ allocated) /\
    values h' arr = values h arr.

Definition two_subject_store : Store.heap :=
  [mkSubject "S1" "First" 40 79 4; mkSubject "S2" "Second" 45 80 3].

(** The unit of the last digit kept by [roundTo]. *)
Definition rounding_unit (digits : Z) : Q := / Qpower 10 digits.

(** Ascending order of the critical marks. *)
Definition crit_asc (a b : CriticalSEE) : Prop := seeCrit a <= seeCrit b.

(** What the search holds in [minSee] and [achieved]: the sentinel and
    the SGPA it started from, or an integer mark of [lo .. hi] whose probe
    reaches the target. *)
Definition search_found (probe : Q -> Q) (targetSgpa : Q) (lo hi : Z)
  (initial : Q) (st : search_state) : Prop :=
  (minSee st = -1 /\ achieved st = initial)
  \/ (exists m, minSee st = inject_Z m /\ (lo <= m <= hi)%Z /\
        targetSgpa <= probe (inject_Z m) /\
        achieved st = probe (inject_Z m)).

(** [{ ...s, see: Math.min(s.see + 1, config.maxSEE) }]. *)
Definition bump_see (config : GradingConfig) (s : Subject) : Subject :=
  with_see s (Qmin (see s + 1) (maxSEE config)).

(** The values a loop variable takes in [n] passes of
    [for (x = start; ...; x += step)], and its value after them. *)
Fixpoint marks_from (x step : Q) (n : nat) : list Q :=
  match n with
  | O => []
  | S k => x :: marks_from (x + step) step k
  end.

Fixpoint mark_at (x step : Q) (n : nat) : Q :=
  match n with
  | O => x
  | S k => mark_at (x + step) step k
  end.

(** The number of marks [0, step, 2 step, ...] that are at most [maxv]. *)
Definition passes (step maxv : Q) : nat :=
  Z.to_nat (Qfloor (maxv / step) + 1).

(** The cell pushed by one pass of the inner loop of
    [generatePairwiseHeatmap]. *)
Definition heat_cell (subjs : list Subject) (indexA indexB : nat)
  (config : GradingConfig) (seeA seeB : Q) : HeatmapCell :=
  {| h_seeA := seeA; h_seeB := seeB;
     h_sgpa := sgpa (calculateSGPA (with_pair indexA indexB seeA seeB subjs)
                                   config) |}.

(** Along the curve neither the SGPA nor the grade point falls. *)
Definition curve_le (p q : CurvePoint) : Prop :=
  cp_sgpa p <= cp_sgpa q /\ cp_gp p <= cp_gp q.

(** [w] is the subject [s] with its SEE possibly raised, never beyond
    [maxSEE] (nor beyond its own mark when that is already higher). *)
Definition raised (config : GradingConfig) (s w : Subject) : Prop :=
  code w = code s /\ name w = name s /\ cie w = cie s /\
  credits w = credits s /\
  see s <= see w /\ see w <= Qmax (see s) (maxSEE config).

(** A step of the global plan raises a mark, by [increaseSeeBy], to at
    most [maxSEE]. *)
Definition step_ok (config : GradingConfig) (st : GlobalPlanStep) : Prop :=
  fromSee st < toSee st /\ toSee st <= maxSEE config /\
  increaseSeeBy st = toSee st - fromSee st.

(** What the planner's loop keeps: the working subjects are the input
    subjects with marks raised, [currentResult] is their SGPA result, and
    every step recorded is a raise. *)
Definition greedy_inv (subjs : list Subject) (config : GradingConfig)
  (st : greedy_state) : Prop :=
  Forall2 (raised config) subjs (workingSubjects st) /\
  currentResult st = calculateSGPA (workingSubjects st) config /\
  Forall (step_ok config) (g_steps st).

(** The subjects the ceiling is computed on are ones whose credits are
    not negative, whose total the table covers and whose SEE is at most
    [maxSEE]. *)
Definition ceiling_ready (config : GradingConfig) (s : Subject) : Prop :=
  0 <= credits s /\
  covered config (calculateTotal (cie s) (see s) config) /\
  see s <= maxSEE config.

(** The grade point the backend gives a stored subject, at its marks and
    at SEE [100]. *)
Definition backend_gp (s : Backend.Subject) : Q :=
  Backend.getGradePoint (Backend.cie s + Backend.scaleSee (Backend.see s)).

Definition backend_max_gp (s : Backend.Subject) : Q :=
  Backend.getGradePoint (Backend.cie s + Backend.scaleSee 100).

(** [Math.max(0, Math.min(config.maxSEE, Math.round(target)))]. *)
Definition clamp_round (config : GradingConfig) (target : Q) : Q :=
  Qmax 0 (Qmin (maxSEE config) (Math_round target)).

(** A marker the slider snaps to: reachable and within [SNAP_THRESHOLD]
    of the requested mark. *)
Definition near_marker (newSee : Q) (c : CriticalSEE) : Prop :=
  reachable c = true /\ Qabs (seeCrit c - newSee) <= SNAP_THRESHOLD.

(** The reachable markers other than [c] lie more than two marks away
    from it. *)
Definition markers_apart (criticalValues : list CriticalSEE) (c : CriticalSEE)
  : Prop :=
  forall c', In c' criticalValues -> reachable c' = true ->
    seeCrit c' == seeCrit c \/ 2 < Qabs (seeCrit c' - seeCrit c).

(* ------------------------------------------------------------------ *)
(** * Properties *)

(** ** Comparisons *)

Lemma Qlt_bool_iff (a b : Q) : Qlt_bool a b = true <-> a < b.
Proof.
  unfold Qlt_bool. rewrite negb_true_iff.
  split; intro H.
  - apply Qnot_le_lt. intro Hle. apply Qle_bool_iff in Hle. congruence.
  - destruct (Qle_bool b a) eqn:E; [|reflexivity].
    apply Qle_bool_iff in E. exfalso. exact (Qlt_not_le _ _ H E).
Qed.

Lemma Qlt_bool_false_iff (a b : Q) : Qlt_bool a b = false <-> b <= a.
Proof.
  unfold Qlt_bool. rewrite negb_false_iff. apply Qle_bool_iff.
Qed.

Lemma Qle_bool_false_iff (a b : Q) : Qle_bool a b = false <-> b < a.
Proof.
  rewrite <- Qlt_bool_iff. unfold Qlt_bool.
  destruct (Qle_bool a b); simpl; split; congruence.
Qed.

(** ** Bucket lookup *)

Lemma sort_insert_perm {A} (cmp : A -> A -> Q) x l :
  Permutation (sort_insert cmp x l) (x :: l).
Proof.
  induction l as [|y l IH]; simpl; [reflexivity|].
  destruct (Qlt_bool 0 (cmp x y)); [|reflexivity].
  rewrite IH. apply perm_swap.
Qed.

Lemma js_sort_perm {A} (cmp : A -> A -> Q) l : Permutation (js_sort cmp l) l.
Proof.
  induction l as [|x l IH]; simpl; [reflexivity|].
  rewrite sort_insert_perm. now constructor.
Qed.

Lemma sort_insert_desc x l :
  StronglySorted desc l ->
  StronglySorted desc (sort_insert (fun a b => bmin b - bmin a) x l).
Proof.
  induction 1 as [|y l Hs IH Hall]; simpl.
  - repeat constructor.
  - destruct (Qlt_bool 0 (bmin y - bmin x)) eqn:E.
    + apply Qlt_bool_iff in E.
      constructor; [exact IH|].
      eapply Permutation_Forall; [symmetry; apply sort_insert_perm|].
      constructor; [unfold desc; lra | exact Hall].
    + apply Qlt_bool_false_iff in E.
      constructor; [constructor; assumption|].
      constructor; [unfold desc; lra|].
      eapply Forall_impl; [|exact Hall].
      unfold desc; intros b Hb; lra.
Qed.

Lemma sortedBuckets_desc config : StronglySorted desc (sortedBuckets config).
Proof.
  unfold sortedBuckets, js_sort.
  induction (buckets config) as [|x l IH]; simpl.
  - constructor.
  - apply sort_insert_desc, IH.
Qed.

Lemma sortedBuckets_perm config :
  Permutation (sortedBuckets config) (buckets config).
Proof. apply js_sort_perm. Qed.

(** What the scan finds in any list of buckets. *)
Lemma gp_scan_first total l :
  (exists l1 b l2, l = l1 ++ b :: l2 /\
      (forall b', In b' l1 -> total < bmin b') /\
      bmin b <= total /\ gp_scan total l = gp b)
  \/ ((forall b', In b' l -> total < bmin b') /\ gp_scan total l = 0).
Proof.
  induction l as [|b l IH]; simpl.
  - right. split; [intros ? []|reflexivity].
  - destruct (Qle_bool (bmin b) total) eqn:E.
    + apply Qle_bool_iff in E. left. exists [], b, l.
      repeat split; auto. intros ? [].
    + apply Qle_bool_false_iff in E.
      destruct IH as [(l1 & b0 & l2 & -> & Hl1 & Hb0 & Hgp) | [Hnone Hgp]].
      * left. exists (b :: l1), b0, l2. repeat split; auto.
        intros b' [<-|Hin]; auto.
      * right. split; auto. intros b' [<-|Hin]; auto.
Qed.

Lemma sortedBuckets_default :
  sortedBuckets DEFAULT_GRADING_CONFIG = buckets DEFAULT_GRADING_CONFIG.
Proof. reflexivity. Qed.

(** Turns every boolean comparison met in the goal into its proposition. *)
Ltac cmp_cases :=
  repeat match goal with
  | |- context [Qle_bool ?a ?b] =>
      let E := fresh "E" in
      destruct (Qle_bool a b) eqn:E;
      [apply Qle_bool_iff in E | apply Qle_bool_false_iff in E]
  | |- context [Qlt_bool ?a ?b] =>
      let E := fresh "E" in
      destruct (Qlt_bool a b) eqn:E;
      [apply Qlt_bool_iff in E | apply Qlt_bool_false_iff in E]
  end.

(** The default table, band by band. *)
Lemma gpForTotal_default_bands (t : Q) :
  (90 <= t -> gpForTotal t DEFAULT_GRADING_CONFIG = 10) /\
  (80 <= t < 90 -> gpForTotal t DEFAULT_GRADING_CONFIG = 9) /\
  (70 <= t < 80 -> gpForTotal t DEFAULT_GRADING_CONFIG = 8) /\
  (60 <= t < 70 -> gpForTotal t DEFAULT_GRADING_CONFIG = 7) /\
  (50 <= t < 60 -> gpForTotal t DEFAULT_GRADING_CONFIG = 6) /\
  (40 <= t < 50 -> gpForTotal t DEFAULT_GRADING_CONFIG = 5) /\
  (0 <= t < 40 -> gpForTotal t DEFAULT_GRADING_CONFIG = 4) /\
  (t < 0 -> gpForTotal t DEFAULT_GRADING_CONFIG = 0).
Proof.
  unfold gpForTotal. rewrite sortedBuckets_default. simpl.
  repeat split; intros H; cmp_cases; try reflexivity; exfalso; lra.
Qed.

Lemma desc_head_max b l b' :
  StronglySorted desc (b :: l) -> In b' (b :: l) -> bmin b' <= bmin b.
Proof.
  intros Hs [<-|Hin]; [lra|].
  inversion Hs as [|? ? _ Hall]; subst.
  rewrite Forall_forall in Hall. apply (Hall b' Hin).
Qed.

Lemma desc_app_r l1 l2 : StronglySorted desc (l1 ++ l2) -> StronglySorted desc l2.
Proof.
  induction l1 as [|a l1 IH]; simpl; [auto|].
  intros Hs. inversion Hs; auto.
Qed.

(** The bucket the lookup chooses, or the fallback. *)
Lemma gpForTotal_chosen (t : Q) (config : GradingConfig) :
  (exists l1 b l2,
      sortedBuckets config = l1 ++ b :: l2 /\
      (forall b', In b' l1 -> t < bmin b') /\
      bmin b <= t /\
      In b (buckets config) /\
      (forall b', In b' (buckets config) -> bmin b' <= t -> bmin b' <= bmin b) /\
      gpForTotal t config = gp b)
  \/ ((forall b', In b' (buckets config) -> t < bmin b') /\
      gpForTotal t config = 0).
Proof.
  pose proof (sortedBuckets_perm config) as Hperm.
  pose proof (sortedBuckets_desc config) as Hsorted.
  unfold gpForTotal.
  destruct (gp_scan_first t (sortedBuckets config))
    as [(l1 & b & l2 & Heq & Hl1 & Hb & Hgp) | [Hnone Hgp]].
  - left. exists l1, b, l2. repeat split; auto.
    + eapply Permutation_in; [exact Hperm|].
      rewrite Heq. apply in_or_app. right. now left.
    + intros b' Hin Hle.
      apply (Permutation_in _ (Permutation_sym Hperm)) in Hin.
      rewrite Heq in Hin, Hsorted.
      apply in_app_or in Hin. destruct Hin as [Hin|Hin].
      * specialize (Hl1 b' Hin). exfalso. lra.
      * apply desc_app_r in Hsorted.
        eapply desc_head_max; eauto.
  - right. split; auto. intros b' Hin. apply Hnone.
    apply (Permutation_in _ (Permutation_sym Hperm)), Hin.
Qed.

(** C1. [gpForTotal t config] is the grade point of the first bucket of the
    table sorted by descending [min] whose [min] is at most [t]: the sorted
    table is a descending rearrangement of the configured buckets, every
    bucket before the chosen one has [min > t], and the chosen bucket has
    the greatest [min] among all buckets with [min <= t] (when there is
    none the fallback [0] is returned).  Under the default table a total
    equal to a bucket's minimum gets that bucket's grade point and a total
    just below it gets the next lower one: [90] gives [10], [89.999] gives
    [9], and so on for every band. *)
Theorem gpForTotal_first_bucket :
  forall (t : Q) (config : GradingConfig),
    Permutation (sortedBuckets config) (buckets config) /\
    StronglySorted desc (sortedBuckets config) /\
    ((exists l1 b l2,
        sortedBuckets config = l1 ++ b :: l2 /\
        (forall b', In b' l1 -> t < bmin b') /\
        bmin b <= t /\
        In b (buckets config) /\
        (forall b', In b' (buckets config) -> bmin b' <= t -> bmin b' <= bmin b) /\
        gpForTotal t config = gp b)
     \/ ((forall b', In b' (buckets config) -> t < bmin b') /\
         gpForTotal t config = 0)) /\
    gpForTotal 90 DEFAULT_GRADING_CONFIG = 10 /\
    gpForTotal 89.999 DEFAULT_GRADING_CONFIG = 9 /\
    (90 <= t -> gpForTotal t DEFAULT_GRADING_CONFIG = 10) /\
    (80 <= t < 90 -> gpForTotal t DEFAULT_GRADING_CONFIG = 9) /\
    (70 <= t < 80 -> gpForTotal t DEFAULT_GRADING_CONFIG = 8) /\
    (60 <= t < 70 -> gpForTotal t DEFAULT_GRADING_CONFIG = 7) /\
    (50 <= t < 60 -> gpForTotal t DEFAULT_GRADING_CONFIG = 6) /\
    (40 <= t < 50 -> gpForTotal t DEFAULT_GRADING_CONFIG = 5) /\
    (0 <= t < 40 -> gpForTotal t DEFAULT_GRADING_CONFIG = 4).
Proof.
  intros t config.
  pose proof (sortedBuckets_perm config) as Hperm.
  pose proof (sortedBuckets_desc config) as Hsorted.
  split; [exact Hperm|]. split; [exact Hsorted|]. split.
  - apply gpForTotal_chosen.
  - split; [reflexivity|]. split; [reflexivity|].
    pose proof (gpForTotal_default_bands t) as H. tauto.
Qed.

(** C1, at the totals of the spec's boundary example. *)
Lemma gpForTotal_first_bucket_witness :
  gpForTotal 90 DEFAULT_GRADING_CONFIG = 10 /\
  gpForTotal 89.999 DEFAULT_GRADING_CONFIG = 9 /\
  gpForTotal 85 DEFAULT_GRADING_CONFIG = 9.
Proof.
  pose proof (gpForTotal_first_bucket 85 DEFAULT_GRADING_CONFIG)
    as (_ & _ & _ & H90 & H89 & _ & H85 & _).
  split; [exact H90|]. split; [exact H89|].
  apply H85. split; [apply Qle_bool_iff | apply Qlt_bool_iff]; reflexivity.
Defined.

(** ** Rounding and sums *)

Lemma Qfloor_unique (x : Q) (n : Z) :
  inject_Z n <= x -> x < inject_Z (n + 1) -> Qfloor x = n.
Proof.
  intros Hlo Hhi.
  pose proof (Qfloor_le x) as Hf1. pose proof (Qlt_floor x) as Hf2.
  assert (H1 : (n < Qfloor x + 1)%Z).
  { rewrite Zlt_Qlt. eapply Qle_lt_trans; eauto. }
  assert (H2 : (Qfloor x < n + 1)%Z).
  { rewrite Zlt_Qlt. eapply Qle_lt_trans; eauto. }
  lia.
Qed.

Lemma Math_round_inject (x : Q) (n : Z) :
  x == inject_Z n -> Math_round x = inject_Z n.
Proof.
  intros Hx. unfold Math_round. f_equal.
  apply Qfloor_unique; rewrite Hx.
  - lra.
  - rewrite inject_Z_plus. change (inject_Z 1) with 1. lra.
Qed.

Lemma Math_round_mono (x y : Q) : x <= y -> Math_round x <= Math_round y.
Proof.
  intros H. unfold Math_round. rewrite <- Zle_Qle.
  apply Qfloor_resp_le. lra.
Qed.

Lemma Math_round_comp (x y : Q) : x == y -> Math_round x = Math_round y.
Proof.
  intros H. unfold Math_round. f_equal. apply Qfloor_comp. rewrite H. reflexivity.
Qed.

Lemma multiplier_pos (digits : Z) : 0 < Qpower 10 digits.
Proof. apply Qpower_0_lt. reflexivity. Qed.

Lemma roundTo_mono (x y : Q) (digits : Z) :
  x <= y -> roundTo x digits <= roundTo y digits.
Proof.
  intros H. unfold roundTo.
  pose proof (multiplier_pos digits) as Hm.
  unfold Qdiv. apply Qmult_le_compat_r.
  - apply Math_round_mono. apply Qmult_le_compat_r; [exact H | lra].
  - apply Qlt_le_weak, Qinv_lt_0_compat, Hm.
Qed.

Lemma roundTo_comp (x y : Q) (digits : Z) :
  x == y -> roundTo x digits == roundTo y digits.
Proof.
  intros H. unfold roundTo.
  rewrite (Math_round_comp (x * 10 ^ digits) (y * 10 ^ digits)).
  - reflexivity.
  - rewrite H. reflexivity.
Qed.

Lemma roundTo_zero (digits : Z) : roundTo 0 digits == 0.
Proof.
  unfold roundTo.
  rewrite (Math_round_inject (0 * 10 ^ digits) 0).
  - unfold Qdiv. change (inject_Z 0) with 0. lra.
  - change (inject_Z 0) with 0. lra.
Qed.

Lemma round2_roundTo (x : Q) : Backend.round2 x = roundTo x 2.
Proof. reflexivity. Qed.

Lemma fold_left_sum {A} (f : A -> Q) (l : list A) (a : Q) :
  fold_left (fun sum r => sum + f r) l a == a + Qsum (map f l).
Proof.
  revert a. induction l as [|x l IH]; intros a; simpl.
  - lra.
  - rewrite IH. lra.
Qed.

Lemma reduce_sum_Qsum {A} (f : A -> Q) (l : list A) :
  reduce_sum f l == Qsum (map f l).
Proof. unfold reduce_sum. rewrite fold_left_sum. lra. Qed.

Lemma reduce_sum_map {A B} (g : A -> B) (f : B -> Q) (l : list A) :
  reduce_sum f (map g l) = reduce_sum (fun x => f (g x)) l.
Proof.
  unfold reduce_sum. generalize 0.
  induction l as [|x l IH]; intros a; simpl; [reflexivity|apply IH].
Qed.

Lemma reduce_sum_ext {A} (f g : A -> Q) (l : list A) :
  (forall x, In x l -> f x = g x) -> reduce_sum f l = reduce_sum g l.
Proof.
  unfold reduce_sum. generalize 0.
  induction l as [|x l IH]; intros a H; simpl; [reflexivity|].
  rewrite (H x (or_introl eq_refl)). apply IH.
  intros y Hy. apply H. now right.
Qed.

(** ** Semester aggregation *)

Lemma calculateSGPA_totalCredits subjs config :
  totalCredits (calculateSGPA subjs config) = reduce_sum credits subjs.
Proof. exact (reduce_sum_map (subjectResult config) r_credits subjs). Qed.

Lemma calculateSGPA_totalWeighted subjs config :
  totalWeighted (calculateSGPA subjs config)
  = reduce_sum (fun s => gradePoint config s * credits s) subjs.
Proof. exact (reduce_sum_map (subjectResult config) r_weighted subjs). Qed.

Lemma calculateSGPA_sgpa subjs config :
  sgpa (calculateSGPA subjs config)
  = roundTo (if Qlt_bool 0 (totalCredits (calculateSGPA subjs config))
             then totalWeighted (calculateSGPA subjs config)
                  / totalCredits (calculateSGPA subjs config)
             else 0) (roundingDigits config).
Proof. reflexivity. Qed.



(** ** Outcomes of calls *)

Lemma gp_scan_none total l :
  (forall b, In b l -> total < bmin b) -> gp_scan total l = 0.
Proof.
  induction l as [|b l IH]; simpl; intros H; [reflexivity|].
  destruct (Qle_bool (bmin b) total) eqn:E.
  - apply Qle_bool_iff in E. specialize (H b (or_introl eq_refl)).
    exfalso. lra.
  - apply IH. intros b' Hb'. apply H. now right.
Qed.

(** C6, as stated, fails: with no bucket at or below the total the lookup
    returns [0]; nothing is thrown. *)
Lemma gpForTotal_no_match_returns :
  (forall b, In b (buckets no_floor_config) -> 30 < bmin b) /\
  gpForTotal_call 30 no_floor_config = Returns 0 /\
  (forall message, gpForTotal_call 30 no_floor_config <> Throws message).
Proof.
  split; [|split].
  - intros b [<-|[]]. reflexivity.
  - reflexivity.
  - intros message H. discriminate H.
Qed.

(** C6, amended.  When no bucket of the configuration has [min <= total]
    the lookup returns the fallback grade point [0]. *)
Theorem gpForTotal_fallback :
  forall (total : Q) (config : GradingConfig),
    (forall b, In b (buckets config) -> total < bmin b) ->
    gpForTotal_call total config = Returns 0.
Proof.
  intros total config H. unfold gpForTotal_call, gpForTotal. f_equal.
  apply gp_scan_none. intros b Hb. apply H.
  eapply Permutation_in; [apply sortedBuckets_perm | exact Hb].
Qed.

Lemma gpForTotal_fallback_witness :
  gpForTotal_call 30 no_floor_config = Returns 0.
Proof.
  apply (gpForTotal_fallback 30 no_floor_config).
  intros b [<-|[]]. reflexivity.
Defined.

(** ** Validation *)

(** C7, as stated, fails: [calculateSGPA] computes a result for a subject
    with negative internal marks. *)
Lemma calculateSGPA_accepts_invalid :
  violates DEFAULT_GRADING_CONFIG negative_cie_subject /\
  exists r,
    calculateSGPA_call [negative_cie_subject] DEFAULT_GRADING_CONFIG = Returns r
    /\ sgpa r == 4.
Proof.
  split.
  - left. reflexivity.
  - eexists. split; reflexivity.
Qed.

Lemma falsy_iff (s : string) : falsy s = true <-> s = ""%string.
Proof. unfold falsy. apply String.eqb_eq. Qed.

(** C7, amended.  Validation is a separate function, [validateSubject],
    which returns [valid = false] with at least one message exactly for
    the subjects that violate a domain constraint; the computation itself
    performs no validation and returns a result for every input. *)
Theorem validateSubject_reports_violations :
  forall (show : Q -> string) (s : Subject) (config : GradingConfig),
    (valid (validateSubject show s config) = false <-> violates config s) /\
    (valid (validateSubject show s config) = false
       <-> errors (validateSubject show s config) <> []) /\
    (forall subjs, exists r, calculateSGPA_call subjs config = Returns r).
Proof.
  intros show s config.
  assert (Hv : valid (validateSubject show s config) = false
               <-> errors (validateSubject show s config) <> []).
  { unfold validateSubject; cbn [valid errors].
    match goal with |- context [List.length ?l] => destruct l end;
      simpl; split; congruence. }
  split; [|split; [exact Hv|]].
  - rewrite Hv. clear Hv. unfold validateSubject, violates; cbn [errors].
    destruct (Qlt_bool (cie s) 0) eqn:E1;
    destruct (Qlt_bool (maxCIE config) (cie s)) eqn:E2;
    destruct (Qlt_bool (see s) 0) eqn:E3;
    destruct (Qlt_bool (maxSEE config) (see s)) eqn:E4;
    destruct (Qle_bool (credits s) 0) eqn:E5;
    destruct (falsy (code s)) eqn:E6;
    destruct (falsy (name s)) eqn:E7;
    simpl;
    rewrite ?Qlt_bool_iff, ?Qlt_bool_false_iff in *;
    rewrite ?Qle_bool_iff, ?Qle_bool_false_iff in *;
    rewrite ?falsy_iff in *;
    (split;
     [ intros H; first [tauto | exfalso; apply H; reflexivity]
     | intros H; try discriminate ]).
    destruct H as [H|[H|[H|[H|[H|[H|H]]]]]]; try (exfalso; lra);
      apply falsy_iff in H; congruence.
  - intros subjs. eexists. reflexivity.
Qed.

(** ** Cumulative aggregation (backend) *)

Lemma truthy_false (x : Q) : Backend.truthy x = false <-> x == 0.
Proof.
  unfold Backend.truthy. rewrite negb_false_iff. apply Qeq_bool_iff.
Qed.

Lemma truthy_true (x : Q) : Backend.truthy x = true <-> ~ x == 0.
Proof.
  unfold Backend.truthy. rewrite negb_true_iff. split.
  - apply Qeq_bool_neq.
  - intros H. destruct (Qeq_bool x 0) eqn:E; [|reflexivity].
    apply Qeq_bool_iff in E. contradiction.
Qed.

Lemma round2_comp (x y : Q) : x == y -> Backend.round2 x == Backend.round2 y.
Proof. rewrite !round2_roundTo. apply roundTo_comp. Qed.

Lemma round2_zero : Backend.round2 0 == 0.
Proof. reflexivity. Qed.

Lemma aggregateCGPA_sums (semesters : list Backend.Semester) :
  reduce_sum Backend.b_credits (map Backend.breakdownOf semesters)
    == Qsum (map semester_credits semesters) /\
  reduce_sum (fun b => Backend.b_sgpa b * Backend.b_credits b)
             (map Backend.breakdownOf semesters)
    == Qsum (map (fun sem => semester_sgpa sem * semester_credits sem) semesters).
Proof.
  split.
  - rewrite (reduce_sum_map Backend.breakdownOf Backend.b_credits).
    apply reduce_sum_Qsum.
  - rewrite (reduce_sum_map Backend.breakdownOf
               (fun b => Backend.b_sgpa b * Backend.b_credits b)).
    apply reduce_sum_Qsum.
Qed.



(** ** Agreement of the frontend and backend engines *)

Lemma is_int_plus x y : is_int x -> is_int y -> is_int (x + y).
Proof.
  intros [a Ha] [b Hb]. exists (a + b)%Z.
  rewrite inject_Z_plus, Ha, Hb. reflexivity.
Qed.

Lemma is_int_mult x y : is_int x -> is_int y -> is_int (x * y).
Proof.
  intros [a Ha] [b Hb]. exists (a * b)%Z.
  rewrite inject_Z_mult, Ha, Hb. reflexivity.
Qed.

Lemma is_int_inject z : is_int (inject_Z z).
Proof. exists z. reflexivity. Qed.

Lemma round2_int (x : Q) : is_int x -> Backend.round2 x == x.
Proof.
  intros [z Hz]. unfold Backend.round2.
  rewrite (Math_round_inject (x * 100) (z * 100)).
  - rewrite inject_Z_mult, <- Hz. change (inject_Z 100) with 100.
    field.
  - rewrite inject_Z_mult, Hz. reflexivity.
Qed.

Lemma gp_scan_comp (t1 t2 : Q) l : t1 == t2 -> gp_scan t1 l = gp_scan t2 l.
Proof.
  intros H. induction l as [|b l IH]; simpl; [reflexivity|].
  rewrite IH. now rewrite (Qleb_comp (bmin b) (bmin b) (Qeq_refl _) t1 t2 H).
Qed.

Lemma gpForTotal_comp (t1 t2 : Q) config :
  t1 == t2 -> gpForTotal t1 config = gpForTotal t2 config.
Proof. apply gp_scan_comp. Qed.

Lemma getGradePoint_comp (t1 t2 : Q) :
  t1 == t2 -> Backend.getGradePoint t1 = Backend.getGradePoint t2.
Proof.
  intros H. unfold Backend.getGradePoint.
  now rewrite !(fun c => Qleb_comp c c (Qeq_refl _) t1 t2 H).
Qed.

Lemma gpForTotal_default_backend (t : Q) :
  0 <= t -> gpForTotal t DEFAULT_GRADING_CONFIG = Backend.getGradePoint t.
Proof.
  intros H. unfold gpForTotal, Backend.getGradePoint.
  rewrite sortedBuckets_default. simpl.
  apply Qle_bool_iff in H. rewrite H.
  repeat match goal with
         | |- context [Qle_bool ?a t] => destruct (Qle_bool a t)
         end; reflexivity.
Qed.

Lemma getGradePoint_int (t : Q) : is_int (Backend.getGradePoint t).
Proof.
  unfold Backend.getGradePoint.
  repeat match goal with
         | |- context [Qle_bool ?a t] => destruct (Qle_bool a t)
         end;
  match goal with |- is_int (inject_Z ?z) => apply is_int_inject
                | |- is_int ?q => exists (Qnum q); reflexivity end.
Qed.

Lemma scaleSEE_default (v : Q) :
  scaleSEE v DEFAULT_GRADING_CONFIG == Backend.scaleSee v.
Proof.
  unfold scaleSEE, Backend.scaleSee; simpl.
  assert (H : 100 / 50 == 2) by reflexivity.
  rewrite H. reflexivity.
Qed.

Lemma gradePoint_default_backend (s : Subject) :
  0 <= cie s -> 0 <= see s ->
  gradePoint DEFAULT_GRADING_CONFIG s
  = Backend.getGradePoint (cie s + Backend.scaleSee (see s)).
Proof.
  intros Hc Hs. unfold gradePoint, calculateTotal.
  rewrite (gpForTotal_comp _ (cie s + Backend.scaleSee (see s))).
  - apply gpForTotal_default_backend.
    assert (H : 0 <= Backend.scaleSee (see s)).
    { unfold Backend.scaleSee. apply Qle_shift_div_l; [reflexivity | lra]. }
    lra.
  - rewrite scaleSEE_default. reflexivity.
Qed.

Lemma Qsum_nonneg (l : list Q) : Forall (fun x => 0 <= x) l -> 0 <= Qsum l.
Proof.
  induction 1 as [|x l Hx _ IH]; simpl; lra.
Qed.

Lemma Qsum_int (l : list Q) : Forall is_int l -> is_int (Qsum l).
Proof.
  induction 1 as [|x l Hx _ IH]; simpl.
  - exists 0%Z. reflexivity.
  - now apply is_int_plus.
Qed.

Lemma is_int_comp x y : x == y -> is_int x -> is_int y.
Proof. intros H [z Hz]. exists z. rewrite <- H. exact Hz. Qed.

Lemma truthy_nonneg (x : Q) : 0 <= x -> Backend.truthy x = Qlt_bool 0 x.
Proof.
  intros H. destruct (Qlt_bool 0 x) eqn:E.
  - apply Qlt_bool_iff in E. apply truthy_true. intros Hz. lra.
  - apply Qlt_bool_false_iff in E. apply truthy_false. lra.
Qed.

Section Agreement.
Variable subjs : list Subject.
Hypothesis Hvalid : Forall valid_marks_credits subjs.

Let bgp (s : Subject) : Q :=
  Backend.getGradePoint (cie s + Backend.scaleSee (see s)).
Let bmax (s : Subject) : Q :=
  Backend.getGradePoint (cie s + Backend.scaleSee 100).

Lemma backend_credits_raw :
  reduce_sum (fun b : Q * Q * Q => snd b)
    (map (fun s : Backend.Subject =>
            (Backend.gp (Backend.computeSubjectMetrics
                           (Backend.cie s) (Backend.see s) (Backend.credits s)),
             Backend.weighted (Backend.computeSubjectMetrics
                           (Backend.cie s) (Backend.see s) (Backend.credits s)),
             Backend.credits s))
         (map to_backend subjs))
  = reduce_sum credits subjs.
Proof.
  rewrite map_map.
  exact (reduce_sum_map _ (fun b : Q * Q * Q => snd b) subjs).
Qed.

Lemma backend_credits :
  Backend.totalCredits (Backend.aggregateSGPA (map to_backend subjs))
  = reduce_sum credits subjs.
Proof. exact backend_credits_raw. Qed.

Lemma backend_weighted_raw :
  reduce_sum (fun b : Q * Q * Q => snd (fst b))
    (map (fun s : Backend.Subject =>
            (Backend.gp (Backend.computeSubjectMetrics
                           (Backend.cie s) (Backend.see s) (Backend.credits s)),
             Backend.weighted (Backend.computeSubjectMetrics
                           (Backend.cie s) (Backend.see s) (Backend.credits s)),
             Backend.credits s))
         (map to_backend subjs))
  = reduce_sum (fun s => bgp s * credits s) subjs.
Proof.
  rewrite map_map.
  exact (reduce_sum_map _ (fun b : Q * Q * Q => snd (fst b)) subjs).
Qed.

Lemma backend_max_raw :
  fold_left (fun sum (s : Backend.Subject) =>
               sum + Backend.getGradePoint
                       (Backend.cie s + Backend.scaleSee 100)
                     * Backend.credits s)
            (map to_backend subjs) 0
  = reduce_sum (fun s => bmax s * credits s) subjs.
Proof.
  exact (reduce_sum_map to_backend
           (fun s => Backend.getGradePoint
                       (Backend.cie s + Backend.scaleSee 100)
                     * Backend.credits s) subjs).
Qed.

Lemma frontend_weighted :
  totalWeighted (calculateSGPA subjs DEFAULT_GRADING_CONFIG)
  = reduce_sum (fun s => bgp s * credits s) subjs.
Proof.
  rewrite calculateSGPA_totalWeighted. apply reduce_sum_ext.
  intros s Hs. rewrite Forall_forall in Hvalid.
  destruct (Hvalid s Hs) as ((Hc & _) & (Hs0 & _) & _).
  now rewrite gradePoint_default_backend.
Qed.

Lemma frontend_max :
  reduce_sum (fun w => w)
    (map (maxWeightedOf DEFAULT_GRADING_CONFIG)
         (map (fun s => with_see s (maxSEE DEFAULT_GRADING_CONFIG)) subjs))
  = reduce_sum (fun s => bmax s * credits s) subjs.
Proof.
  rewrite map_map, (reduce_sum_map _ (fun w : Q => w)).
  apply reduce_sum_ext.
  intros s Hs. rewrite Forall_forall in Hvalid.
  destruct (Hvalid s Hs) as ((Hc & _) & _).
  unfold maxWeightedOf, calculateWeightedPoints; cbn [cie see credits with_see].
  f_equal.
  exact (gradePoint_default_backend (with_see s 100) Hc ltac:(simpl; lra)).
Qed.

Lemma credits_sum_nonneg : 0 <= reduce_sum credits subjs.
Proof.
  rewrite reduce_sum_Qsum. apply Qsum_nonneg.
  rewrite Forall_map. eapply Forall_impl; [|exact Hvalid].
  intros s (_ & _ & n & Hn & Hc). rewrite Hc.
  change 0 with (inject_Z 0). rewrite <- Zle_Qle. lia.
Qed.

Lemma weighted_sum_int : is_int (reduce_sum (fun s => bgp s * credits s) subjs).
Proof.
  eapply is_int_comp; [symmetry; apply reduce_sum_Qsum|].
  apply Qsum_int. rewrite Forall_map.
  eapply Forall_impl; [|exact Hvalid].
  intros s (_ & _ & n & _ & Hc). apply is_int_mult.
  - apply getGradePoint_int.
  - exists n. exact Hc.
Qed.

Lemma engines_agree_section :
  let f := calculateSGPA subjs DEFAULT_GRADING_CONFIG in
  let b := Backend.aggregateSGPA (map to_backend subjs) in
  sgpa f == Backend.sgpa b /\
  totalCredits f == Backend.totalCredits b /\
  totalWeighted f == Backend.totalWeighted b /\
  maxSgpaIfAll100 f == Backend.maxSgpaIfAll100 b.
Proof.
  intros f b.
  assert (Hcr : totalCredits f = Backend.totalCredits b).
  { subst f b. now rewrite backend_credits, calculateSGPA_totalCredits. }
  pose proof credits_sum_nonneg as Hnn.
  pose proof frontend_weighted as Hfw.
  pose proof weighted_sum_int as Hint.
  repeat split.
  - subst f b. rewrite calculateSGPA_sgpa, Hfw, calculateSGPA_totalCredits.
    unfold Backend.aggregateSGPA; cbn [Backend.sgpa].
    rewrite backend_weighted_raw.
    rewrite backend_credits_raw, (truthy_nonneg _ Hnn). reflexivity.
  - rewrite Hcr. reflexivity.
  - subst f b. rewrite Hfw.
    unfold Backend.aggregateSGPA; cbn [Backend.totalWeighted].
    rewrite backend_weighted_raw. symmetry. apply round2_int, Hint.
  - subst f b.
    unfold calculateSGPA at 1; cbn [maxSgpaIfAll100].
    rewrite frontend_max.
    rewrite (reduce_sum_map (subjectResult DEFAULT_GRADING_CONFIG) r_credits).
    change (fun x => r_credits (subjectResult DEFAULT_GRADING_CONFIG x))
      with credits.
    unfold Backend.aggregateSGPA; cbn [Backend.maxSgpaIfAll100].
    rewrite backend_max_raw.
    rewrite backend_credits_raw, (truthy_nonneg _ Hnn). reflexivity.
Qed.
End Agreement.

(** C10. On valid input (marks in [0, 50] and [0, 100], positive integer
    credits) the frontend's [calculateSGPA] under the default configuration
    and the backend's [aggregateSGPA] return equal [sgpa], [totalCredits],
    [totalWeighted] and [maxSgpaIfAll100]. *)
Theorem frontend_backend_agree :
  forall (subjs : list Subject),
    Forall valid_marks_credits subjs ->
    let f := calculateSGPA subjs DEFAULT_GRADING_CONFIG in
    let b := Backend.aggregateSGPA (map to_backend subjs) in
    sgpa f == Backend.sgpa b /\
    totalCredits f == Backend.totalCredits b /\
    totalWeighted f == Backend.totalWeighted b /\
    maxSgpaIfAll100 f == Backend.maxSgpaIfAll100 b.
Proof. exact engines_agree_section. Qed.

(** C10, on the specification's two-subject semester. *)
Lemma frontend_backend_agree_witness :
  let subjs := [mkSubject "S1" "First" 40 60 4;
                mkSubject "S2" "Second" 45 80 3] in
  let f := calculateSGPA subjs DEFAULT_GRADING_CONFIG in
  let b := Backend.aggregateSGPA (map to_backend subjs) in
  sgpa f == Backend.sgpa b /\
  totalCredits f == Backend.totalCredits b /\
  totalWeighted f == Backend.totalWeighted b /\
  maxSgpaIfAll100 f == Backend.maxSgpaIfAll100 b.
Proof.
  apply (frontend_backend_agree
           [mkSubject "S1" "First" 40 60 4; mkSubject "S2" "Second" 45 80 3]).
  apply Forall_cons; [|apply Forall_cons; [|apply Forall_nil]].
  - split; [split; discriminate|]. split; [split; discriminate|].
    exists 4%Z. split; [lia | reflexivity].
  - split; [split; discriminate|]. split; [split; discriminate|].
    exists 3%Z. split; [lia | reflexivity].
Defined.

(** ** Monotonicity *)

Lemma gpForTotal_mono config t1 t2 :
  monotone_buckets config -> covered config t1 -> t1 <= t2 ->
  gpForTotal t1 config <= gpForTotal t2 config.
Proof.
  intros Hmono (b0 & Hin0 & Hb0) Hle.
  destruct (gpForTotal_chosen t1 config)
    as [(_ & b1 & _ & _ & _ & Hb1 & Hin1 & _ & ->) | [Hnone _]].
  2: { specialize (Hnone b0 Hin0). exfalso. lra. }
  destruct (gpForTotal_chosen t2 config)
    as [(_ & b2 & _ & _ & _ & Hb2 & Hin2 & Hmax2 & ->) | [Hnone _]].
  2: { specialize (Hnone b0 Hin0). exfalso. lra. }
  apply Hmono; auto. apply Hmax2; auto. lra.
Qed.

Lemma gpForTotal_uncovered config t :
  ~ covered config t -> gpForTotal t config = 0.
Proof.
  intros Hnc.
  destruct (gpForTotal_chosen t config)
    as [(_ & b & _ & _ & _ & Hb & Hin & _) | [_ H]]; [|exact H].
  exfalso. apply Hnc. now exists b.
Qed.

Lemma covered_dec config t : covered config t \/ ~ covered config t.
Proof.
  destruct (gpForTotal_chosen t config)
    as [(_ & b & _ & _ & _ & Hb & Hin & _) | [Hnone _]].
  - left. now exists b.
  - right. intros (b & Hin & Hb). specialize (Hnone b Hin). lra.
Qed.

Lemma scale_nonneg config :
  0 <= maxCIE config -> 0 <= maxSEE config ->
  0 <= / (maxSEE config / maxCIE config).
Proof.
  intros Hc Hs. apply Qinv_le_0_compat.
  unfold Qdiv. apply Qmult_le_0_compat; [exact Hs|].
  apply Qinv_le_0_compat, Hc.
Qed.

Lemma calculateTotal_mono config c v1 v2 :
  0 <= maxCIE config -> 0 <= maxSEE config -> v1 <= v2 ->
  calculateTotal c v1 config <= calculateTotal c v2 config.
Proof.
  intros Hc Hs Hv. unfold calculateTotal, scaleSEE, Qdiv.
  pose proof (scale_nonneg config Hc Hs) as Hk.
  assert (v1 * / (maxSEE config / maxCIE config)
          <= v2 * / (maxSEE config / maxCIE config)).
  { apply Qmult_le_compat_r; assumption. }
  unfold Qdiv in *. lra.
Qed.

Lemma weighted_le_refl config s : weighted_le config s s.
Proof. split; [reflexivity | lra]. Qed.

Lemma Forall2_credits config l l' :
  Forall2 (weighted_le config) l l' -> map credits l = map credits l'.
Proof.
  induction 1 as [|s s' l l' [Hc _] _ IH]; simpl; [reflexivity|].
  now rewrite Hc, IH.
Qed.

Lemma Forall2_weighted config l l' :
  Forall2 (weighted_le config) l l' ->
  Qsum (map (fun s => gradePoint config s * credits s) l)
  <= Qsum (map (fun s => gradePoint config s * credits s) l').
Proof.
  induction 1 as [|s s' l l' [_ Hw] _ IH]; simpl; lra.
Qed.

Lemma reduce_sum_credits_eq config l l' :
  Forall2 (weighted_le config) l l' ->
  reduce_sum credits l = reduce_sum credits l'.
Proof.
  intros H. apply Forall2_credits in H.
  transitivity (reduce_sum (fun x : Q => x) (map credits l)).
  - symmetry. exact (reduce_sum_map credits (fun x => x) l).
  - rewrite H. exact (reduce_sum_map credits (fun x => x) l').
Qed.

Lemma sgpa_mono config l l' :
  Forall2 (weighted_le config) l l' ->
  sgpa (calculateSGPA l config) <= sgpa (calculateSGPA l' config).
Proof.
  intros H. rewrite !calculateSGPA_sgpa.
  rewrite !calculateSGPA_totalCredits, !calculateSGPA_totalWeighted.
  rewrite <- (reduce_sum_credits_eq config l l' H).
  apply roundTo_mono.
  destruct (Qlt_bool 0 (reduce_sum credits l)) eqn:E; [|lra].
  apply Qlt_bool_iff in E.
  unfold Qdiv. apply Qmult_le_compat_r.
  - rewrite !reduce_sum_Qsum. apply Forall2_weighted, H.
  - apply Qlt_le_weak, Qinv_lt_0_compat, E.
Qed.

Lemma Forall2_same {A} (R : A -> A -> Prop) (l : list A) :
  (forall x, R x x) -> Forall2 R l l.
Proof. intros H. induction l; constructor; auto. Qed.

Lemma Forall2_map_at {A} (R : A -> A -> Prop) (f g : A -> A) i (l : list A) :
  (forall x, R x x) ->
  (forall x, nth_error l i = Some x -> R (f x) (g x)) ->
  Forall2 R (map_at f i l) (map_at g i l).
Proof.
  intros Hrefl. revert i.
  induction l as [|x l IH]; intros i H; [destruct i; constructor|].
  destruct i as [|i]; simpl.
  - constructor; [apply H; reflexivity | apply Forall2_same, Hrefl].
  - constructor; [apply Hrefl | apply IH; intros y Hy; apply H; exact Hy].
Qed.

(** Raising the SEE of a subject whose total is covered by the table. *)
Lemma gradePoint_mono config s v :
  monotone_buckets config ->
  0 <= maxCIE config -> 0 <= maxSEE config ->
  covered config (calculateTotal (cie s) (see s) config) ->
  see s <= v ->
  gradePoint config s <= gradePoint config (with_see s v).
Proof.
  intros Hmono Hc Hs Hcov Hv. unfold gradePoint; cbn [cie see with_see].
  apply gpForTotal_mono; auto.
  apply calculateTotal_mono; auto.
Qed.

(** C5, as stated, fails: under a table whose grade points fall as the
    minimum rises, raising a subject's SEE from [0] to [100] lowers its
    grade point, its weighted points and the SGPA from [10] to [4]. *)
Lemma raising_see_can_lower_sgpa :
  see falling_subject <= 100 /\
  gradePoint falling_config (with_see falling_subject 100)
    < gradePoint falling_config falling_subject /\
  gradePoint falling_config (with_see falling_subject 100)
    * credits (with_see falling_subject 100)
    < gradePoint falling_config falling_subject * credits falling_subject /\
  sgpa (calculateSGPA [with_see falling_subject 100] falling_config)
    < sgpa (calculateSGPA [falling_subject] falling_config).
Proof.
  repeat split; try reflexivity. discriminate.
Qed.

(** C5, amended.  Under a configuration with positive scales whose
    grade points do not decrease with [min] and whose table covers the
    subject's current total, raising the SEE of one subject of
    non-negative credits, all else fixed, lowers neither its grade point,
    nor its weighted points, nor the SGPA of the semester. *)
Theorem raising_see_monotone :
  forall (config : GradingConfig) (l1 l2 : list Subject) (s : Subject) (v : Q),
    monotone_buckets config ->
    0 < maxCIE config -> 0 < maxSEE config ->
    covered config (calculateTotal (cie s) (see s) config) ->
    0 <= credits s ->
    see s <= v ->
    gradePoint config s <= gradePoint config (with_see s v) /\
    gradePoint config s * credits s
      <= gradePoint config (with_see s v) * credits (with_see s v) /\
    sgpa (calculateSGPA (l1 ++ s :: l2) config)
      <= sgpa (calculateSGPA (l1 ++ with_see s v :: l2) config).
Proof.
  intros config l1 l2 s v Hmono Hc Hs Hcov Hcr Hv.
  apply Qlt_le_weak in Hc. apply Qlt_le_weak in Hs.
  pose proof (gradePoint_mono config s v Hmono Hc Hs Hcov Hv) as Hgp.
  assert (Hw : gradePoint config s * credits s
               <= gradePoint config (with_see s v) * credits (with_see s v)).
  { cbn [credits with_see]. apply Qmult_le_compat_r; assumption. }
  repeat split; auto.
  apply sgpa_mono. apply Forall2_app.
  - apply Forall2_same, weighted_le_refl.
  - constructor.
    + split; [reflexivity | exact Hw].
    + apply Forall2_same, weighted_le_refl.
Qed.

(** C5 amended, on the specification's semester: the second subject goes
    from SEE [80] to [90]. *)
Lemma raising_see_monotone_witness :
  sgpa (calculateSGPA [mkSubject "S1" "First" 40 60 4;
                       mkSubject "S2" "Second" 45 80 3]
                      DEFAULT_GRADING_CONFIG)
  <= sgpa (calculateSGPA [mkSubject "S1" "First" 40 60 4;
                          mkSubject "S2" "Second" 45 90 3]
                         DEFAULT_GRADING_CONFIG).
Proof.
  apply (raising_see_monotone DEFAULT_GRADING_CONFIG
           [mkSubject "S1" "First" 40 60 4] []
           (mkSubject "S2" "Second" 45 80 3) 90).
  - intros b1 b2 H1 H2.
    simpl in H1, H2.
    repeat (destruct H1 as [<-|H1] || destruct H2 as [<-|H2]);
      try contradiction; simpl; intros H; lra.
  - reflexivity.
  - reflexivity.
  - exists (mkBucket 0 4 "F"). split; [simpl; tauto | discriminate].
  - discriminate.
  - discriminate.
Defined.

(** ** The binary search *)

Section Search.
Variables (probe : Q -> Q) (targetSgpa : Q).
Variables (lo hi : Z).

Hypothesis upward :
  forall a b : Z, (lo <= a <= b)%Z -> (b <= hi)%Z ->
    reaches probe targetSgpa a -> reaches probe targetSgpa b.

Lemma left_le_right st L R :
  left st == inject_Z L -> Qfloor (right st) = R ->
  (left st <= right st <-> (L <= R)%Z).
Proof.
  intros Hl Hr. split; intros H.
  - rewrite <- Hr, <- (Qfloor_Z L). apply Qfloor_resp_le.
    rewrite <- Hl. exact H.
  - rewrite Hl. eapply Qle_trans; [|apply Qfloor_le].
    rewrite Hr, <- Zle_Qle. exact H.
Qed.

Lemma mid_bounds st L R :
  left st == inject_Z L -> Qfloor (right st) = R -> (L <= R)%Z ->
  (L <= Qfloor ((left st + right st) / 2) <= R)%Z.
Proof.
  intros Hl Hr Hle.
  pose proof (proj2 (left_le_right st L R Hl Hr) Hle) as Hq.
  assert (H1 : inject_Z L <= (left st + right st) / 2).
  { apply Qle_shift_div_l; [reflexivity|]. rewrite <- Hl. lra. }
  assert (H2 : (left st + right st) / 2 <= right st).
  { apply Qle_shift_div_r; [reflexivity|]. lra. }
  split.
  - rewrite <- (Qfloor_Z L). apply Qfloor_resp_le, H1.
  - rewrite <- Hr. apply Qfloor_resp_le, H2.
Qed.

Lemma search_exit st L R :
  search_inv probe targetSgpa lo hi st L R -> (R < L)%Z -> search_post probe targetSgpa lo hi st.
Proof.
  intros (Hl & Hr & HloL & HRhi & HLR & Hbelow & Hmin) Hgt.
  destruct Hmin as [[-> Hm] | (Hlt & Hm & Hreach & Hach)].
  - left. split; [exact Hm|]. intros z Hz. apply Hbelow. lia.
  - right. exists (R + 1)%Z. repeat split; auto; try lia.
    intros z Hz. apply Hbelow. lia.
Qed.

Lemma Qfloor_pred (m : Z) : Qfloor (inject_Z m - 1) = (m - 1)%Z.
Proof.
  rewrite <- (Qfloor_Z (m - 1)). apply Qfloor_comp.
  unfold Zminus. rewrite inject_Z_plus. reflexivity.
Qed.

Lemma search_loop_post fuel :
  forall st L R,
    search_inv probe targetSgpa lo hi st L R -> (Z.to_nat (R - L + 1) <= fuel)%nat ->
    search_post probe targetSgpa lo hi (search_loop fuel probe targetSgpa st).
Proof.
  induction fuel as [|fuel IH]; intros st L R Hinv Hfuel.
  - simpl. apply (search_exit st L R Hinv). lia.
  - simpl.
    destruct Hinv as (Hl & Hr & HloL & HRhi & HLR & Hbelow & Hmin).
    destruct (Qle_bool (left st) (right st)) eqn:Hcond.
    + apply Qle_bool_iff in Hcond.
      apply (left_le_right st L R Hl Hr) in Hcond.
      pose proof (mid_bounds st L R Hl Hr Hcond) as Hmid.
      unfold Math_floor.
      set (m := Qfloor ((left st + right st) / 2)) in *.
      destruct (Qle_bool targetSgpa (probe (inject_Z m))) eqn:Hp.
      * apply Qle_bool_iff in Hp.
        apply (IH _ L (m - 1)%Z); [|lia].
        unfold search_inv; cbn [left right minSee achieved].
        repeat split; auto; try lia.
        -- apply Qfloor_pred.
        -- right. replace (m - 1 + 1)%Z with m by lia.
           repeat split; auto. lia.
      * apply Qle_bool_false_iff in Hp.
        apply (IH _ (m + 1)%Z R); [|lia].
        unfold search_inv; cbn [left right minSee achieved].
        repeat split; auto; try lia.
        -- rewrite inject_Z_plus. reflexivity.
        -- intros z Hz Hreach.
           assert (Hm : reaches probe targetSgpa m) by (apply (upward z m); auto; lia).
           unfold reaches in Hm. lra.
    + apply Qle_bool_false_iff in Hcond.
      apply (search_exit st L R); [unfold search_inv; tauto|].
      destruct (Z_lt_le_dec R L) as [H|H]; [exact H|].
      apply (left_le_right st L R Hl Hr) in H. lra.
Qed.
End Search.

(** The fuel of the search is never used up: once it covers the integers
    between [left] and [right], more fuel changes nothing, so the state
    returned is the state at which [left <= right] fails. *)
Lemma search_loop_exits (probe : Q -> Q) (targetSgpa : Q) fuel :
  forall st L k,
    left st == inject_Z L ->
    (Z.to_nat (Qfloor (right st) - L + 1) <= fuel)%nat ->
    search_loop (fuel + k) probe targetSgpa st
    = search_loop fuel probe targetSgpa st.
Proof.
  induction fuel as [|fuel IH]; intros st L k Hl Hfuel.
  - destruct k as [|k]; [reflexivity|]. simpl.
    destruct (Qle_bool (left st) (right st)) eqn:Hcond; [|reflexivity].
    apply Qle_bool_iff in Hcond.
    apply (left_le_right st L _ Hl eq_refl) in Hcond. lia.
  - simpl.
    destruct (Qle_bool (left st) (right st)) eqn:Hcond; [|reflexivity].
    apply Qle_bool_iff in Hcond.
    apply (left_le_right st L _ Hl eq_refl) in Hcond.
    pose proof (mid_bounds st L _ Hl eq_refl Hcond) as Hmid.
    unfold Math_floor.
    set (m := Qfloor ((left st + right st) / 2)) in *.
    destruct (Qle_bool targetSgpa (probe (inject_Z m))).
    + apply (IH _ L); cbn [left right]; [exact Hl|].
      rewrite Qfloor_pred. lia.
    + apply (IH _ (m + 1)%Z); cbn [left right].
      * rewrite inject_Z_plus. reflexivity.
      * lia.
Qed.

(** ** The single-subject planner *)

Lemma findIndex_nth {A} (p : A -> bool) (l : list A) i :
  findIndex p l = Some i -> exists x, nth_error l i = Some x /\ p x = true.
Proof.
  revert i. induction l as [|x l IH]; intros i H; simpl in H; [discriminate|].
  destruct (p x) eqn:E.
  - inversion H; subst. exists x. split; [reflexivity | exact E].
  - destruct (findIndex p l) as [j|]; [|discriminate].
    inversion H; subst. apply (IH j eq_refl).
Qed.

Lemma with_see_same (s : Subject) : with_see s (see s) = s.
Proof. destruct s; reflexivity. Qed.

Lemma map_at_fixed {A} (f : A -> A) i (l : list A) x :
  nth_error l i = Some x -> f x = x -> map_at f i l = l.
Proof.
  revert i. induction l as [|y l IH]; intros i Hn Hf; [destruct i; reflexivity|].
  destruct i as [|i]; simpl in *.
  - inversion Hn; subst. now rewrite Hf.
  - f_equal. apply IH; assumption.
Qed.

Lemma covered_up config t1 t2 : covered config t1 -> t1 <= t2 -> covered config t2.
Proof. intros (b & Hin & Hb) H. exists b. split; [exact Hin | lra]. Qed.

Section Target.
Variables (subjs : list Subject) (config : GradingConfig).
Variables (targetIndex : nat) (current : Subject).
Hypothesis Hnth : nth_error subjs targetIndex = Some current.
Hypothesis Hmono : monotone_buckets config.
Hypothesis HmaxCIE : 0 <= maxCIE config.
Hypothesis HmaxSEE : 0 <= maxSEE config.
Hypothesis Hcredits : 0 <= credits current.

Let probe := probe_sgpa subjs targetIndex config.
Let total (v : Q) := calculateTotal (cie current) v config.

Lemma probe_current : probe (see current) = sgpa (calculateSGPA subjs config).
Proof.
  unfold probe, probe_sgpa.
  rewrite (map_at_fixed _ targetIndex subjs current Hnth (with_see_same _)).
  reflexivity.
Qed.

Lemma probe_le (a b : Q) :
  gpForTotal (total a) config <= gpForTotal (total b) config ->
  probe a <= probe b.
Proof.
  intros Hgp. unfold probe, probe_sgpa. apply sgpa_mono.
  apply Forall2_map_at; [apply weighted_le_refl|].
  intros x Hx. rewrite Hnth in Hx. inversion Hx; subst x.
  split; [reflexivity|].
  unfold gradePoint; cbn [cie see credits with_see].
  apply Qmult_le_compat_r; assumption.
Qed.

Lemma probe_mono_covered (a b : Q) :
  a <= b -> covered config (total a) -> probe a <= probe b.
Proof.
  intros Hab Hcov. apply probe_le.
  apply gpForTotal_mono; auto.
  apply calculateTotal_mono; auto.
Qed.

Lemma probe_uncovered (a : Q) :
  see current <= a -> ~ covered config (total a) ->
  probe a <= probe (see current).
Proof.
  intros Ha Hnc. apply probe_le.
  rewrite (gpForTotal_uncovered config (total a) Hnc).
  rewrite (gpForTotal_uncovered config (total (see current))); [lra|].
  intros Hcov. apply Hnc. eapply covered_up; [exact Hcov|].
  apply calculateTotal_mono; auto.
Qed.

(** Among the marks from the current one upwards, the marks that reach
    a target not yet met are closed upwards. *)
Lemma reaches_upward (targetSgpa a b : Q) :
  sgpa (calculateSGPA subjs config) < targetSgpa ->
  see current <= a -> a <= b ->
  targetSgpa <= probe a -> targetSgpa <= probe b.
Proof.
  intros Hcur Ha Hab Hreach.
  destruct (covered_dec config (total a)) as [Hcov|Hnc].
  - pose proof (probe_mono_covered a b Hab Hcov). lra.
  - pose proof (probe_uncovered a Ha Hnc) as H.
    rewrite probe_current in H. lra.
Qed.
End Target.


(** The unreachable target of the specification: one subject with
    [cie = 10], target [10]. *)
Example findMinimalSEEForTarget_unreachable :
  findMinimalSEEForTarget [mkSubject "S1" "First" 10 0 3] "S1" 10
                          DEFAULT_GRADING_CONFIG
  = Returns {| p_code := "S1"; p_name := "First"; currentSee := 0;
               minSeeToReachTarget := -1; achievedSgpa := 4.00;
               possible := false; marginalGain := 0.0000 |}.
Proof. reflexivity. Qed.

Lemma default_monotone : monotone_buckets DEFAULT_GRADING_CONFIG.
Proof.
  intros b1 b2 H1 H2. simpl in H1, H2.
  repeat (destruct H1 as [<-|H1] || destruct H2 as [<-|H2]);
    try contradiction; simpl; intros H; lra.
Defined.


(** ** The greedy planner *)

Lemma greedy_loop_iterations fuel targetSgpa config :
  forall st,
    (iterations st <= maxIterations)%nat ->
    (List.length (g_steps st) <= iterations st)%nat ->
    let st' := greedy_loop fuel targetSgpa config st in
    (iterations st' <= maxIterations)%nat /\
    (List.length (g_steps st') <= iterations st')%nat.
Proof.
  induction fuel as [|fuel IH]; intros st Hit Hlen; cbn [greedy_loop]; [auto|].
  destruct (Qlt_bool (sgpa (currentResult st)) targetSgpa); cbn [andb]; [|auto].
  destruct (iterations st <? maxIterations)%nat eqn:Hguard; [|auto].
  apply Nat.ltb_lt in Hguard.
  destruct (forallb _ (workingSubjects st)); cbn [iterations g_steps];
    [split; lia|].
  destruct (best_subject _ _ _) as [best|]; cbn [iterations g_steps];
    [|split; lia].
  destruct (nth_error _ best) as [subject|]; cbn [iterations g_steps];
    [|split; lia].
  match goal with
  | |- context [if ?c then ?a else _] =>
      assert (Hst : (iterations a <= maxIterations)%nat
                    /\ (List.length (g_steps a) <= iterations a)%nat)
        by (cbn [iterations g_steps]; rewrite length_app; cbn [List.length];
            split; lia);
      destruct c
  end.
  - exact Hst.
  - apply IH; apply Hst.
Qed.

(** The fuel of the planner's loop is never used up: with at least
    [maxIterations - iterations] units the loop stops by its own guard or
    by a [break], so more fuel changes nothing. *)
Lemma greedy_loop_exits fuel targetSgpa config :
  forall st extra,
    (maxIterations <= iterations st + fuel)%nat ->
    greedy_loop (fuel + extra) targetSgpa config st
    = greedy_loop fuel targetSgpa config st.
Proof.
  induction fuel as [|fuel IH]; intros st extra Hfuel.
  - destruct extra as [|extra]; [reflexivity|]. cbn [Nat.add greedy_loop].
    assert (Hguard : (iterations st <? maxIterations)%nat = false)
      by (apply Nat.ltb_ge; lia).
    rewrite Hguard, andb_false_r. reflexivity.
  - cbn [Nat.add greedy_loop].
    destruct (Qlt_bool (sgpa (currentResult st)) targetSgpa); cbn [andb];
      [|reflexivity].
    destruct (iterations st <? maxIterations)%nat; [|reflexivity].
    destruct (forallb _ (workingSubjects st)); [reflexivity|].
    destruct (best_subject _ _ _) as [best|]; [|reflexivity].
    destruct (nth_error _ best) as [subject|]; [|reflexivity].
    match goal with |- context [if ?c then _ else _] => destruct c end;
      [reflexivity|].
    apply IH. cbn [iterations]. lia.
Qed.

(** C4. [greedyGlobalPlan] terminates for every subject list, target and
    configuration: its loop makes at most [maxIterations = 1000] passes and
    then has exited (more fuel changes nothing), every pass adds at most
    one step, and the call returns a plan made of the steps accumulated
    and of the last SGPA computed.  Reaching the cap is not an error: when
    the loop is left after [1000] passes with the SGPA still below the
    target, the plan returned has [targetReached = false]. *)
Theorem greedyGlobalPlan_terminates :
  forall (subjs : list Subject) (targetSgpa : Q) (config : GradingConfig),
    let st := greedy_final subjs targetSgpa config in
    maxIterations = 1000%nat /\
    (iterations st <= maxIterations)%nat /\
    (forall extra,
        greedy_loop (maxIterations + extra) targetSgpa config
                    (greedy_init subjs config) = st) /\
    (List.length (g_steps st) <= iterations st)%nat /\
    exists plan,
      greedyGlobalPlan_call subjs targetSgpa config = Returns plan /\
      steps plan = g_steps st /\
      finalSgpa plan = sgpa (currentResult st) /\
      (targetReached plan = true <-> targetSgpa <= finalSgpa plan) /\
      (iterations st = maxIterations -> finalSgpa plan < targetSgpa ->
         targetReached plan = false).
Proof.
  intros subjs T config st. subst st.
  assert (Hfinal : greedy_final subjs T config
                   = greedy_loop maxIterations T config
                       (greedy_init subjs config)) by reflexivity.
  destruct (greedy_loop_iterations maxIterations T config
              (greedy_init subjs config)) as [Hit Hlen];
    [cbn [iterations greedy_init]; lia
    | cbn [iterations g_steps greedy_init List.length]; lia |].
  rewrite <- Hfinal in Hit, Hlen.
  split; [reflexivity|]. split; [exact Hit|]. split; [|split; [exact Hlen|]].
  - intros extra. rewrite Hfinal.
    apply greedy_loop_exits. cbn [iterations greedy_init]. lia.
  - exists (greedyGlobalPlan subjs T config).
    split; [reflexivity|].
    unfold greedyGlobalPlan; cbn [steps finalSgpa targetReached].
    repeat split.
    + apply Qle_bool_iff.
    + apply Qle_bool_iff.
    + intros _ Hlt. apply Qle_bool_false_iff. exact Hlt.
Qed.

(** ** The store: what a call may change *)

Lemma deref_app h ext l :
  (l < List.length h)%nat -> Store.deref (h ++ ext) l = Store.deref h l.
Proof. intros H. unfold Store.deref. now apply app_nth1. Qed.

Lemma values_app h ext arr :
  in_store h arr -> values (h ++ ext) arr = values h arr.
Proof.
  induction 1 as [|l arr Hl _ IH]; simpl; [reflexivity|].
  now rewrite IH, deref_app.
Qed.

Lemma in_store_app h ext arr : in_store h arr -> in_store (h ++ ext) arr.
Proof.
  intros H. eapply Forall_impl; [|exact H].
  intros l Hl. cbv beta in *. rewrite length_app. lia.
Qed.

Lemma values_fresh news :
  forall h, values (h ++ news) (seq (List.length h) (List.length news)) = news.
Proof.
  induction news as [|x news IH]; intros h; simpl; [reflexivity|].
  f_equal.
  - unfold Store.deref. now rewrite nth_middle.
  - specialize (IH (h ++ [x])).
    rewrite <- app_assoc, length_app in IH. simpl in IH.
    now rewrite Nat.add_1_r in IH.
Qed.

Lemma in_store_fresh h news :
  in_store (h ++ news) (seq (List.length h) (List.length news)).
Proof.
  apply Forall_forall. intros l Hl. apply in_seq in Hl.
  rewrite length_app. lia.
Qed.

Lemma read_all_run arr h : Store.read_all arr h = (values h arr, h).
Proof.
  induction arr as [|l arr IH]; [reflexivity|].
  unfold Store.read_all in *. cbn [Store.mapM].
  unfold Store.bind at 1. unfold Store.read at 1.
  unfold Store.bind at 1. rewrite IH. reflexivity.
Qed.

Lemma copy_all_run f arr :
  forall h, in_store h arr ->
    Store.copy_all f arr h
    = (seq (List.length h) (List.length arr), h ++ map f (values h arr)).
Proof.
  induction arr as [|l arr IH]; intros h Hv.
  - simpl. now rewrite app_nil_r.
  - inversion Hv as [|? ? Hl Hv']; subst.
    unfold Store.copy_all in *. cbn [Store.mapM].
    unfold Store.bind at 1. unfold Store.bind at 1.
    unfold Store.read at 1, Store.alloc at 1.
    unfold Store.bind at 1.
    rewrite (IH (h ++ [f (Store.deref h l)]) (in_store_app _ _ _ Hv')).
    unfold Store.ret. rewrite (values_app _ _ _ Hv').
    rewrite length_app, Nat.add_1_r, <- app_assoc. reflexivity.
Qed.

Lemma sgpa_result_pure config ss :
  Store.sgpa_result config ss (map (fun s => with_see s (maxSEE config)) ss)
  = calculateSGPA ss config.
Proof. reflexivity. Qed.

Lemma calculateSGPA_run arr config h :
  in_store h arr ->
  Store.calculateSGPA arr config h
  = (calculateSGPA (values h arr) config,
     h ++ map (fun s => with_see s (maxSEE config)) (values h arr)).
Proof.
  intros Hv. unfold Store.calculateSGPA.
  unfold Store.bind at 1. rewrite read_all_run.
  unfold Store.bind at 1. rewrite (copy_all_run _ _ _ Hv).
  unfold Store.bind at 1. rewrite read_all_run.
  unfold Store.ret.
  replace (List.length arr)
    with (List.length (map (fun s => with_see s (maxSEE config)) (values h arr)))
    by (unfold values; now rewrite !length_map).
  rewrite values_fresh, sgpa_result_pure. reflexivity.
Qed.

Lemma copy_at_run f :
  forall arr i h, in_store h arr ->
    exists arr' ext,
      Store.copy_at f i arr h = (arr', h ++ ext) /\
      in_store (h ++ ext) arr' /\
      values (h ++ ext) arr' = map_at f i (values h arr).
Proof.
  induction arr as [|l arr IH]; intros i h Hv.
  - exists [], []. rewrite app_nil_r. destruct i; repeat split; constructor.
  - inversion Hv as [|? ? Hl Hv']; subst.
    destruct i as [|i]; cbn [Store.copy_at].
    + exists (List.length h :: arr), [f (Store.deref h l)].
      split; [reflexivity|]. split.
      * constructor; [rewrite length_app; simpl; lia | now apply in_store_app].
      * simpl. f_equal; [|now apply values_app].
        unfold Store.deref at 1. now rewrite nth_middle.
    + destruct (IH i h Hv') as (arr' & ext & Hrun & Hva & Hvals).
      exists (l :: arr'), ext. unfold Store.bind. rewrite Hrun.
      split; [reflexivity|]. split.
      * constructor; [rewrite length_app; lia | exact Hva].
      * simpl. now rewrite Hvals, deref_app.
Qed.

(** A modified copy of the array and its SGPA, over the store: the result
    is the pure one and the store only grows. *)
Lemma probe_run f arr i config h :
  in_store h arr ->
  exists ext,
    Store.bind (Store.copy_at f i arr)
               (fun modified => Store.calculateSGPA modified config) h
    = (calculateSGPA (map_at f i (values h arr)) config, h ++ ext).
Proof.
  intros Hv.
  destruct (copy_at_run f arr i h Hv) as (arr' & ext & Hrun & Hva & Hvals).
  unfold Store.bind. rewrite Hrun, (calculateSGPA_run _ _ _ Hva), Hvals.
  rewrite <- app_assoc. eexists. reflexivity.
Qed.

Lemma search_loop_run arr i config targetSgpa fuel :
  forall st h, in_store h arr ->
    exists ext,
      Store.search_loop fuel arr i config targetSgpa st h
      = (search_loop fuel (probe_sgpa (values h arr) i config) targetSgpa st,
         h ++ ext).
Proof.
  induction fuel as [|fuel IH]; intros st h Hv.
  - exists []. now rewrite app_nil_r.
  - cbn [Store.search_loop search_loop].
    destruct (Qle_bool (left st) (right st)).
    2: { exists []. now rewrite app_nil_r. }
    set (mid := Math_floor ((left st + right st) / 2)).
    destruct (probe_run (fun s => with_see s mid) arr i config h Hv)
      as (ext & Hrun).
    unfold Store.bind at 1. unfold Store.bind at 1.
    unfold Store.bind in Hrun.
    destruct (Store.copy_at _ i arr h) as [modified h1].
    rewrite Hrun. fold (probe_sgpa (values h arr) i config mid).
    destruct (Qle_bool targetSgpa (probe_sgpa (values h arr) i config mid));
      match goal with
      | |- context [Store.search_loop fuel arr i config targetSgpa ?st' _] =>
          destruct (IH st' (h ++ ext) (in_store_app _ _ _ Hv)) as (ext' & Hrun')
      end;
      rewrite Hrun', (values_app _ _ _ Hv), <- app_assoc;
      eexists; reflexivity.
Qed.

Lemma findMinimalSEEForTarget_run arr c targetSgpa config h :
  in_store h arr ->
  exists ext,
    Store.findMinimalSEEForTarget arr c targetSgpa config h
    = (findMinimalSEEForTarget (values h arr) c targetSgpa config, h ++ ext)
    /\ (forall message,
          findMinimalSEEForTarget (values h arr) c targetSgpa config
          = Throws message -> ext = []).
Proof.
  intros Hv.
  unfold Store.findMinimalSEEForTarget, findMinimalSEEForTarget.
  unfold Store.bind at 1. rewrite read_all_run.
  destruct (findIndex _ (values h arr)) as [i|].
  2: { exists []. rewrite app_nil_r. split; [reflexivity | auto]. }
  assert (Hnth : nth_error (values h arr) i
                 = option_map (Store.deref h) (nth_error arr i))
    by apply nth_error_map.
  rewrite !Hnth. clear Hnth.
  destruct (nth_error arr i) as [l|] eqn:Hl; cbn [option_map].
  2: { exists []. rewrite app_nil_r. split; [reflexivity | auto]. }
  unfold Store.bind at 1. unfold Store.read at 1.
  unfold Store.bind at 1. rewrite (calculateSGPA_run _ _ _ Hv).
  set (h1 := h ++ _).
  assert (Hv1 : in_store h1 arr) by (apply in_store_app, Hv).
  destruct (probe_run
              (fun s => with_see s (Qmin (see s + 1) (maxSEE config)))
              arr i config h1 Hv1) as (ext & Hrun).
  unfold Store.bind in Hrun. unfold Store.bind at 1. unfold Store.bind at 1.
  destruct (Store.copy_at _ i arr h1) as [testSubjects h2].
  rewrite Hrun.
  assert (Hvals : values h1 arr = values h arr) by (apply values_app, Hv).
  rewrite Hvals.
  destruct (Qle_bool targetSgpa (sgpa (calculateSGPA (values h arr) config))).
  - subst h1. rewrite <- app_assoc. eexists.
    split; [reflexivity | intros ? H; discriminate H].
  - assert (Hv2 : in_store (h1 ++ ext) arr) by (apply in_store_app, Hv1).
    match goal with
    | |- context [Store.search_loop ?fuel arr i config targetSgpa ?st] =>
        destruct (search_loop_run arr i config targetSgpa fuel st
                    (h1 ++ ext) Hv2) as (ext' & Hrun')
    end.
    unfold Store.bind. rewrite Hrun'.
    rewrite (values_app _ _ _ Hv1), Hvals.
    subst h1. rewrite <- !app_assoc. eexists.
    split; [reflexivity | intros ? H; discriminate H].
Qed.

(** *** Assignments to [see] *)

Lemma length_map_at {A} (g : A -> A) i (l : list A) :
  List.length (map_at g i l) = List.length l.
Proof.
  revert i. induction l as [|x l IH]; intros [|i]; simpl; auto.
Qed.

Lemma nth_map_at_same {A} (g : A -> A) i (l : list A) d :
  (i < List.length l)%nat -> nth i (map_at g i l) d = g (nth i l d).
Proof.
  revert i. induction l as [|x l IH]; intros [|i] H; simpl in *;
    try lia; [reflexivity|]. apply IH. lia.
Qed.

Lemma nth_map_at_other {A} (g : A -> A) i j (l : list A) d :
  i <> j -> nth j (map_at g i l) d = nth j l d.
Proof.
  revert i j. induction l as [|x l IH]; intros [|i] [|j] H; simpl;
    try reflexivity; try congruence.
  apply IH. congruence.
Qed.

Lemma map_at_app_r {A} (g : A -> A) (l1 l2 : list A) i :
  (List.length l1 <= i)%nat ->
  map_at g i (l1 ++ l2) = l1 ++ map_at g (i - List.length l1) l2.
Proof.
  revert i. induction l1 as [|x l1 IH]; intros i H; simpl in *.
  - now rewrite Nat.sub_0_r.
  - destruct i as [|i]; [lia|]. simpl. f_equal. apply IH. lia.
Qed.

Lemma values_write_other g l h arr :
  ~ In l arr -> values (map_at g l h) arr = values h arr.
Proof.
  induction arr as [|w arr IH]; intros Hnin; simpl; [reflexivity|].
  rewrite IH by (intros H; apply Hnin; now right).
  f_equal. unfold Store.deref. apply nth_map_at_other.
  intros ->. apply Hnin. now left.
Qed.

Lemma values_write g h :
  forall arr i l,
    NoDup arr -> nth_error arr i = Some l -> in_store h arr ->
    values (map_at g l h) arr = map_at g i (values h arr).
Proof.
  induction arr as [|w arr IH]; intros i l Hnd Hnth Hv; [destruct i; discriminate|].
  inversion Hnd as [|? ? Hnin Hnd']; subst.
  inversion Hv as [|? ? Hw Hv']; subst.
  destruct i as [|i]; simpl in Hnth.
  - inversion Hnth; subst w. simpl.
    rewrite values_write_other by exact Hnin.
    f_equal. unfold Store.deref. now apply nth_map_at_same.
  - simpl. rewrite (IH i l Hnd' Hnth Hv'). f_equal.
    unfold Store.deref. apply nth_map_at_other.
    intros ->. apply Hnin. eapply nth_error_In; eauto.
Qed.

Lemma in_store_write g l h arr : in_store h arr -> in_store (map_at g l h) arr.
Proof.
  intros H. eapply Forall_impl; [|exact H].
  intros w Hw. cbv beta in *. now rewrite length_map_at.
Qed.

(** *** The greedy planner over the store *)

Lemma marginal_step_run working currentSgpa config best i h :
  in_store h working ->
  exists ext,
    Store.marginal_step working currentSgpa config best i h
    = (marginal_step (values h working) currentSgpa config best i, h ++ ext).
Proof.
  intros Hv. unfold Store.marginal_step, marginal_step.
  assert (Hnth : nth_error (values h working) i
                 = option_map (Store.deref h) (nth_error working i))
    by apply nth_error_map.
  rewrite Hnth. clear Hnth.
  destruct (nth_error working i) as [li|]; cbn [option_map].
  2: { exists []. now rewrite app_nil_r. }
  unfold Store.bind at 1. unfold Store.read at 1.
  destruct (Qle_bool (maxSEE config) (see (Store.deref h li))).
  { exists []. now rewrite app_nil_r. }
  destruct (probe_run
              (fun s => with_see s (Qmin (see s + 1) (maxSEE config)))
              working i config h Hv) as (ext & Hrun).
  unfold Store.bind in Hrun. unfold Store.bind at 1. unfold Store.bind at 1.
  destruct (Store.copy_at _ i working h) as [testSubjects h1].
  rewrite Hrun. exists ext.
  destruct (Qlt_bool (snd best) _); reflexivity.
Qed.

Lemma foldM_marginal_run working currentSgpa config idxs :
  forall best h, in_store h working ->
    exists ext,
      Store.foldM (Store.marginal_step working currentSgpa config) idxs best h
      = (fold_left (marginal_step (values h working) currentSgpa config)
                   idxs best, h ++ ext).
Proof.
  induction idxs as [|i idxs IH]; intros best h Hv.
  - exists []. now rewrite app_nil_r.
  - cbn [Store.foldM fold_left].
    destruct (marginal_step_run working currentSgpa config best i h Hv)
      as (ext & Hrun).
    unfold Store.bind. rewrite Hrun.
    destruct (IH (marginal_step (values h working) currentSgpa config best i)
                 (h ++ ext) (in_store_app _ _ _ Hv)) as (ext' & Hrun').
    rewrite Hrun', (values_app _ _ _ Hv), <- app_assoc.
    eexists. reflexivity.
Qed.

Lemma best_subject_run working currentSgpa config h :
  in_store h working ->
  exists ext,
    Store.best_subject working currentSgpa config h
    = (best_subject (values h working) currentSgpa config, h ++ ext).
Proof.
  intros Hv. unfold Store.best_subject, best_subject.
  assert (Hlen : List.length (values h working) = List.length working)
    by apply length_map.
  rewrite Hlen.
  destruct (foldM_marginal_run working currentSgpa config
              (seq 0 (List.length working)) (None, 0) h Hv) as (ext & Hrun).
  unfold Store.bind. rewrite Hrun.
  exists ext. reflexivity.
Qed.

Section GreedyStore.
Variables (h0 : Store.heap) (working : list Store.loc).
Variables (targetSgpa : Q) (config : GradingConfig).
Hypothesis Hnodup : NoDup working.
Hypothesis Hfresh : Forall (fun l => (List.length h0 <= l)%nat) working.

(** The assignment to [see] of a working copy leaves the caller's part
    of the store, [h0], as it is. *)
Lemma write_working_frame e i l v :
  nth_error working i = Some l -> in_store (h0 ++ e) working ->
  exists e',
    map_at (fun s => with_see s v) l (h0 ++ e) = h0 ++ e' /\
    in_store (h0 ++ e') working /\
    values (h0 ++ e') working
    = map_at (fun s => with_see s v) i (values (h0 ++ e) working) /\
    Store.deref (h0 ++ e') l = with_see (Store.deref (h0 ++ e) l) v.
Proof.
  intros Hnth Hv.
  pose proof (nth_error_In _ _ Hnth) as Hin.
  rewrite Forall_forall in Hfresh. pose proof (Hfresh l Hin) as Hl.
  exists (map_at (fun s => with_see s v) (l - List.length h0) e).
  rewrite <- map_at_app_r by exact Hl.
  repeat split.
  - now apply in_store_write.
  - now apply values_write.
  - unfold Store.deref.
    refine (nth_map_at_same (fun s => with_see s v) l (h0 ++ e) _ _).
    unfold in_store in Hv. rewrite Forall_forall in Hv. now apply Hv.
Qed.

Lemma greedy_loop_run fuel :
  forall vars e,
    in_store (h0 ++ e) working ->
    exists vars' e',
      Store.greedy_loop fuel working targetSgpa config vars (h0 ++ e)
      = (vars', h0 ++ e') /\
      in_store (h0 ++ e') working /\
      greedy_loop fuel targetSgpa config
        (pure_state vars (values (h0 ++ e) working))
      = pure_state vars' (values (h0 ++ e') working).
Proof.
  induction fuel as [|fuel IH]; intros vars e Hv.
  - exists vars, e. repeat split; auto.
  - cbn [Store.greedy_loop greedy_loop].
    unfold pure_state.
    cbn [workingSubjects g_steps currentResult iterations].
    destruct (Qlt_bool (sgpa (Store.v_currentResult vars)) targetSgpa
              && (Store.v_iterations vars <? maxIterations)%nat).
    2: { exists vars, e. repeat split; auto. }
    unfold Store.bind at 1. rewrite read_all_run.
    destruct (forallb _ (values (h0 ++ e) working)).
    { eexists _, e. repeat split; auto. }
    destruct (best_subject_run working
                (sgpa (Store.v_currentResult vars)) config (h0 ++ e) Hv)
      as (ext1 & Hbest).
    unfold Store.bind at 1. rewrite Hbest.
    assert (Hv1 : in_store (h0 ++ e ++ ext1) working)
      by (rewrite app_assoc; apply in_store_app, Hv).
    assert (Hvals1 : values (h0 ++ e ++ ext1) working
                     = values (h0 ++ e) working)
      by (rewrite app_assoc; apply values_app, Hv).
    rewrite <- app_assoc.
    destruct (best_subject (values (h0 ++ e) working) _ config) as [b|].
    2: { eexists _, (e ++ ext1). rewrite Hvals1. repeat split; auto. }
    assert (Hnth : nth_error (values (h0 ++ e) working) b
                   = option_map (Store.deref (h0 ++ e)) (nth_error working b))
      by apply nth_error_map.
    rewrite Hnth. clear Hnth.
    destruct (nth_error working b) as [l|] eqn:Hl; cbn [option_map].
    2: { eexists _, (e ++ ext1). rewrite Hvals1. repeat split; auto. }
    assert (Hlin : (l < List.length (h0 ++ e))%nat).
    { unfold in_store in Hv. rewrite Forall_forall in Hv.
      apply Hv. eapply nth_error_In; eauto. }
    unfold Store.bind at 1. unfold Store.read at 1.
    assert (Hd1 : Store.deref (h0 ++ e ++ ext1) l = Store.deref (h0 ++ e) l)
      by (rewrite app_assoc; apply deref_app, Hlin).
    rewrite Hd1.
    set (subject := Store.deref (h0 ++ e) l) in *.
    set (toSee := next_see subject config).
    unfold Store.bind at 1. unfold Store.write_see at 1.
    destruct (write_working_frame (e ++ ext1) b l toSee Hl Hv1)
      as (e2 & Hw & Hv2 & Hvals2 & Hd2).
    rewrite Hw.
    unfold Store.bind at 1. rewrite (calculateSGPA_run _ _ _ Hv2).
    rewrite Hvals2, Hvals1.
    set (ws' := map_at (fun s => with_see s toSee) b
                       (values (h0 ++ e) working)).
    set (mx := map (fun s => with_see s (maxSEE config)) ws').
    unfold Store.bind at 1. unfold Store.read at 1.
    assert (Hd3 : Store.deref ((h0 ++ e2) ++ mx) l
                  = with_see subject toSee).
    { rewrite deref_app.
      - rewrite Hd2, Hd1. reflexivity.
      - unfold in_store in Hv2. rewrite Forall_forall in Hv2.
        apply Hv2. eapply nth_error_In; eauto. }
    rewrite Hd3. cbn [code name with_see].
    assert (Hv3 : in_store (h0 ++ e2 ++ mx) working)
      by (rewrite app_assoc; apply in_store_app, Hv2).
    assert (Hvals3 : values (h0 ++ e2 ++ mx) working = ws').
    { rewrite app_assoc, (values_app _ _ _ Hv2), Hvals2, Hvals1.
      reflexivity. }
    rewrite <- app_assoc.
    destruct (Qle_bool targetSgpa (sgpa (calculateSGPA ws' config))).
    + eexists _, (e2 ++ mx). rewrite Hvals3. repeat split; auto.
    + match goal with
      | |- context [Store.greedy_loop fuel working targetSgpa config ?st'] =>
          destruct (IH st' (e2 ++ mx) Hv3) as (vars' & e' & Hrun & Hv' & Hpure)
      end.
      exists vars', e'. rewrite Hrun. repeat split; auto.
      rewrite Hvals3 in Hpure. exact Hpure.
Qed.
End GreedyStore.

Lemma greedyGlobalPlan_run arr targetSgpa config h :
  in_store h arr ->
  exists ext,
    Store.greedyGlobalPlan arr targetSgpa config h
    = (greedyGlobalPlan (values h arr) targetSgpa config, h ++ ext).
Proof.
  intros Hv. unfold Store.greedyGlobalPlan.
  unfold Store.bind at 1. rewrite (copy_all_run _ _ _ Hv).
  set (W := map (fun s => s) (values h arr)).
  assert (HlenW : List.length arr = List.length W)
    by (subst W; unfold values; now rewrite !length_map).
  rewrite HlenW.
  set (working := seq (List.length h) (List.length W)).
  assert (HvW : in_store (h ++ W) working) by apply in_store_fresh.
  assert (HvalsW : values (h ++ W) working = W) by apply values_fresh.
  unfold Store.bind at 1. rewrite (calculateSGPA_run _ _ _ HvW), HvalsW.
  set (mx := map (fun s => with_see s (maxSEE config)) W).
  rewrite <- app_assoc.
  assert (Hv1 : in_store (h ++ W ++ mx) working)
    by (rewrite app_assoc; apply in_store_app, HvW).
  assert (Hvals1 : values (h ++ W ++ mx) working = W)
    by (rewrite app_assoc, (values_app _ _ _ HvW); exact HvalsW).
  assert (Hnodup : NoDup working) by apply seq_NoDup.
  assert (Hfresh : Forall (fun l => (List.length h <= l)%nat) working).
  { apply Forall_forall. intros l Hl. apply in_seq in Hl. lia. }
  destruct (greedy_loop_run h working targetSgpa config Hnodup Hfresh
              maxIterations
              {| Store.v_steps := [];
                 Store.v_currentResult := calculateSGPA W config;
                 Store.v_iterations := 0 |}
              (W ++ mx) Hv1) as (vars' & e' & Hrun & Hv' & Hpure).
  unfold Store.bind at 1. rewrite Hrun.
  rewrite Hvals1 in Hpure.
  assert (Hfinal : greedy_final (values h arr) targetSgpa config
                   = pure_state vars' (values (h ++ e') working))
    by (rewrite <- Hpure; reflexivity).
  assert (Hv2 : in_store (h ++ e') arr) by (apply in_store_app, Hv).
  unfold Store.bind at 1. rewrite (copy_all_run _ _ _ Hv2).
  rewrite (values_app _ _ _ Hv).
  set (mx' := map (fun s => with_see s (maxSEE config)) (values h arr)).
  assert (HlenM : List.length arr = List.length mx')
    by (subst mx'; unfold values; now rewrite !length_map).
  rewrite HlenM.
  unfold Store.bind at 1.
  rewrite (calculateSGPA_run _ _ _ (in_store_fresh (h ++ e') mx')).
  rewrite values_fresh.
  unfold Store.ret, greedyGlobalPlan. rewrite Hfinal.
  cbn [pure_state g_steps currentResult].
  rewrite <- !app_assoc. eexists. reflexivity.
Qed.

Lemma leaves_inputs_intro {A} (m : Store.M A) h arr result ext :
  in_store h arr -> m h = (result, h ++ ext) -> leaves_inputs m h arr result.
Proof.
  intros Hv Hrun. exists (h ++ ext). split; [exact Hrun|]. split.
  - now exists ext.
  - now apply values_app.
Qed.

(** C8. No engine function mutates its caller's inputs.  Run over a store
    [h] on an array [arr] of references, [calculateSGPA],
    [findMinimalSEEForTarget] and [greedyGlobalPlan] return what the pure
    functions return on the subjects [arr] denotes, and leave a store that
    is [h] followed by newly allocated objects: every object of [h], and so
    every subject of [arr], is as before the call, and the writes of the
    greedy planner go to its own copies.  A call of
    [findMinimalSEEForTarget] that throws leaves the store exactly [h]. *)
Theorem engine_leaves_inputs :
  forall (h : Store.heap) (arr : list Store.loc) (targetSubjectCode : string)
         (targetSgpa : Q) (config : GradingConfig),
    in_store h arr ->
    leaves_inputs (Store.calculateSGPA arr config) h arr
      (calculateSGPA (values h arr) config) /\
    leaves_inputs
      (Store.findMinimalSEEForTarget arr targetSubjectCode targetSgpa config)
      h arr
      (findMinimalSEEForTarget (values h arr) targetSubjectCode targetSgpa
                               config) /\
    (forall message,
        findMinimalSEEForTarget (values h arr) targetSubjectCode targetSgpa
                                config = Throws message ->
        Store.findMinimalSEEForTarget arr targetSubjectCode targetSgpa config h
        = (Throws message, h)) /\
    leaves_inputs (Store.greedyGlobalPlan arr targetSgpa config) h arr
      (greedyGlobalPlan (values h arr) targetSgpa config).
Proof.
  intros h arr c T config Hv.
  destruct (findMinimalSEEForTarget_run arr c T config h Hv)
    as (ext & Hrun & Hthrow).
  destruct (greedyGlobalPlan_run arr T config h Hv) as (ext' & Hrun').
  repeat split.
  - eapply leaves_inputs_intro; [exact Hv | apply calculateSGPA_run, Hv].
  - eapply leaves_inputs_intro; [exact Hv | exact Hrun].
  - intros message Hm. rewrite Hrun, Hm, (Hthrow message Hm), app_nil_r.
    reflexivity.
  - eapply leaves_inputs_intro; [exact Hv | exact Hrun'].
Qed.

(** The planner at work on a store of two subjects: the first subject is
    raised from [79] to [80] on its copy, at location [2]; locations [0]
    and [1], the caller's subjects, keep their marks. *)
Example greedyGlobalPlan_writes_copies :
  let run := Store.greedyGlobalPlan [0%nat; 1%nat] 9 DEFAULT_GRADING_CONFIG
               two_subject_store in
  map (fun st => Qred (toSee st)) (steps (fst run)) = [80] /\
  map code (firstn 3 (snd run)) = ["S1"; "S2"; "S1"]%string /\
  map (fun s => Qred (see s)) (firstn 3 (snd run)) = [79; 80; 80].
Proof. repeat split; reflexivity. Qed.

(** C8, on a store of two subjects. *)
Lemma engine_leaves_inputs_witness :
  leaves_inputs
    (Store.greedyGlobalPlan [0%nat; 1%nat] 9 DEFAULT_GRADING_CONFIG)
    two_subject_store [0%nat; 1%nat]
    (greedyGlobalPlan (values two_subject_store [0%nat; 1%nat]) 9
                      DEFAULT_GRADING_CONFIG).
Proof.
  apply (engine_leaves_inputs two_subject_store [0%nat; 1%nat] "S2" 9
           DEFAULT_GRADING_CONFIG).
  repeat constructor.
Defined.

(* ------------------------------------------------------------------ *)
(** * Further properties of the engine and of its callers *)

(** ** Rounding *)

Lemma Math_round_near (y : Q) :
  y - (1 # 2) < Math_round y /\ Math_round y <= y + (1 # 2).
Proof.
  unfold Math_round.
  pose proof (Qfloor_le (y + (1 # 2))) as H1.
  pose proof (Qlt_floor (y + (1 # 2))) as H2.
  rewrite inject_Z_plus in H2. change (inject_Z 1) with 1 in H2.
  split; lra.
Qed.


(** ** Critical SEE values *)

Lemma sort_insert_asc {A} (key : A -> Q) x l :
  StronglySorted (fun a b => key a <= key b) l ->
  StronglySorted (fun a b => key a <= key b)
    (sort_insert (fun a b => key a - key b) x l).
Proof.
  induction 1 as [|y l Hs IH Hall]; simpl.
  - repeat constructor.
  - destruct (Qlt_bool 0 (key x - key y)) eqn:E.
    + apply Qlt_bool_iff in E.
      constructor; [exact IH|].
      eapply Permutation_Forall; [symmetry; apply sort_insert_perm|].
      constructor; [lra | exact Hall].
    + apply Qlt_bool_false_iff in E.
      constructor; [constructor; assumption|].
      constructor; [lra|].
      eapply Forall_impl; [|exact Hall].
      intros b Hb; cbv beta in *; lra.
Qed.

Lemma js_sort_asc {A} (key : A -> Q) l :
  StronglySorted (fun a b => key a <= key b)
    (js_sort (fun a b => key a - key b) l).
Proof.
  unfold js_sort. induction l as [|x l IH]; simpl.
  - constructor.
  - apply sort_insert_asc, IH.
Qed.

Lemma criticals_perm cie config :
  Permutation (calculateCriticalSEEValues cie config)
              (map (criticalOf cie config) (buckets config)).
Proof. apply js_sort_perm. Qed.

Lemma critical_in cie config c :
  In c (calculateCriticalSEEValues cie config) ->
  exists b, In b (buckets config) /\ c = criticalOf cie config b.
Proof.
  intros H. apply (Permutation_in _ (criticals_perm cie config)) in H.
  apply in_map_iff in H. destruct H as (b & Hb & Hin). now exists b.
Qed.

Lemma clamp_range (maxv x : Q) :
  0 <= maxv -> 0 <= Qmax 0 (Qmin maxv x) <= maxv.
Proof.
  intros H. split; [apply Q.le_max_l|].
  apply Q.max_lub; [exact H | apply Q.le_min_l].
Qed.

Lemma clamp_id (maxv x : Q) :
  0 <= x -> x <= maxv -> Qmax 0 (Qmin maxv x) == x.
Proof.
  intros H0 H1. rewrite (Q.min_r _ _ H1). apply Q.max_r, H0.
Qed.

(** X2. [calculateCriticalSEEValues] returns one marker per bucket, each
    with the cutoff and grade point of its bucket, in ascending order of
    [seeCrit]; with [maxSEE >= 0] every [seeCrit] lies in [0, maxSEE]. *)
Theorem criticals_sorted_in_range :
  forall (cie : Q) (config : GradingConfig),
    let criticals := calculateCriticalSEEValues cie config in
    List.length criticals = List.length (buckets config) /\
    Permutation (map (fun c => (cutoffTotal c, c_gp c)) criticals)
                (map (fun b => (bmin b, gp b)) (buckets config)) /\
    StronglySorted crit_asc criticals /\
    (0 <= maxSEE config ->
     Forall (fun c => 0 <= seeCrit c <= maxSEE config) criticals).
Proof.
  intros cie config criticals. subst criticals.
  pose proof (criticals_perm cie config) as Hperm.
  split; [|split; [|split]].
  - rewrite (Permutation_length Hperm). apply length_map.
  - rewrite (Permutation_map _ Hperm), map_map. reflexivity.
  - apply (js_sort_asc seeCrit).
  - intros Hmax. apply Forall_forall. intros c Hc.
    destruct (critical_in _ _ _ Hc) as (b & _ & ->).
    cbn [seeCrit criticalOf]. apply clamp_range, Hmax.
Qed.

Lemma criticals_sorted_in_range_witness :
  Forall (fun c => 0 <= seeCrit c <= 100)
         (calculateCriticalSEEValues 40 DEFAULT_GRADING_CONFIG).
Proof.
  apply (criticals_sorted_in_range 40 DEFAULT_GRADING_CONFIG).
  discriminate.
Defined.

Lemma calculateTotal_comp c v1 v2 config :
  v1 == v2 -> calculateTotal c v1 config == calculateTotal c v2 config.
Proof.
  intros H. unfold calculateTotal, scaleSEE. rewrite H. reflexivity.
Qed.

Lemma reachable_raw cie config b :
  reachable (criticalOf cie config b) = true ->
  seeCrit (criticalOf cie config b)
  == (bmin b - cie) * (maxSEE config / maxCIE config).
Proof.
  cbn [reachable seeCrit criticalOf]. intros H.
  apply andb_true_iff in H. destruct H as [H0 H1].
  apply Qle_bool_iff in H0, H1. now apply clamp_id.
Qed.

Lemma gpForTotal_at_min config b :
  monotone_buckets config -> In b (buckets config) ->
  gpForTotal (bmin b) config == gp b.
Proof.
  intros Hmono Hin.
  destruct (gpForTotal_chosen (bmin b) config)
    as [(_ & b' & _ & _ & _ & Hle & Hin' & Hmax & ->) | [Hnone _]].
  - pose proof (Hmax b Hin (Qle_refl _)) as Hge.
    apply Qle_antisym; apply Hmono; auto.
  - specialize (Hnone b Hin). exfalso. lra.
Qed.



(** ** Grade bands *)

Lemma last_element_in {A} (l : list A) x : last_element l = Some x -> In x l.
Proof.
  induction l as [|y l IH]; simpl; [discriminate|].
  destruct l as [|z l]; [intros H; inversion H; now left|].
  intros H. right. apply IH, H.
Qed.

Lemma last_element_none {A} (l : list A) : last_element l = None <-> l = [].
Proof.
  split; [|intros ->; reflexivity].
  induction l as [|y l IH]; [reflexivity|]. simpl.
  destruct l as [|z l]; [discriminate|].
  intros H. specialize (IH H). discriminate.
Qed.

(** X4. [getGradeBandForSEE] returns a bucket of the table whose grade
    point is the grade point of the total whenever some bucket has
    [min <= total]; when none has (the fallback grade point [0]) and no
    bucket carries grade point [0], it returns the last bucket of the
    table; it returns nothing only for an empty table. *)
Theorem getGradeBandForSEE_band :
  forall (cie see : Q) (config : GradingConfig),
    let total := calculateTotal cie see config in
    (covered config total ->
     exists b, getGradeBandForSEE cie see config = Some b /\
               In b (buckets config) /\
               gp b == gpForTotal total config) /\
    (~ covered config total ->
     (forall b, In b (buckets config) -> ~ gp b == 0) ->
     getGradeBandForSEE cie see config = last_element (buckets config)) /\
    (getGradeBandForSEE cie see config = None <-> buckets config = []).
Proof.
  intros cie see config total. unfold getGradeBandForSEE. fold total.
  split; [|split].
  - intros Hcov.
    destruct (find _ (buckets config)) as [b|] eqn:Hfind.
    + apply find_some in Hfind. destruct Hfind as [Hin Heq].
      exists b. repeat split; auto. now apply Qeq_bool_iff.
    + exfalso.
      destruct (gpForTotal_chosen total config)
        as [(_ & b & _ & _ & _ & _ & Hin & _ & Hgp) | [Hnone _]].
      * pose proof (find_none _ _ Hfind b Hin) as Hb. cbv beta in Hb.
        rewrite Hgp, Qeq_bool_refl in Hb. discriminate.
      * destruct Hcov as (b & Hin & Hle). specialize (Hnone b Hin). lra.
  - intros Hnc Hnz. rewrite (gpForTotal_uncovered _ _ Hnc).
    destruct (find _ (buckets config)) as [b|] eqn:Hfind; [|reflexivity].
    apply find_some in Hfind. destruct Hfind as [Hin Heq].
    apply Qeq_bool_iff in Heq. exfalso. exact (Hnz b Hin Heq).
  - split.
    + destruct (find _ (buckets config)) as [b|]; [discriminate|].
      apply last_element_none.
    + intros ->. reflexivity.
Qed.

Lemma getGradeBandForSEE_band_witness :
  exists b, getGradeBandForSEE 40 59 DEFAULT_GRADING_CONFIG = Some b /\
            In b (buckets DEFAULT_GRADING_CONFIG) /\
            gp b == 7.
Proof.
  assert (Hcov : covered DEFAULT_GRADING_CONFIG
                   (calculateTotal 40 59 DEFAULT_GRADING_CONFIG)).
  { exists (mkBucket 0 4 "F"). split; [simpl; tauto | discriminate]. }
  destruct (proj1 (getGradeBandForSEE_band 40 59 DEFAULT_GRADING_CONFIG) Hcov)
    as (b & H & Hin & Hgp).
  exists b. split; [exact H|]. split; [exact Hin | exact Hgp].
Defined.

(** ** The single-subject planner: errors and soundness *)

Lemma findIndex_none {A} (p : A -> bool) (l : list A) :
  findIndex p l = None <-> forall x, In x l -> p x = false.
Proof.
  induction l as [|x l IH]; simpl.
  - split; [intros _ ? [] | reflexivity].
  - destruct (p x) eqn:E.
    + split; [discriminate|]. intros H.
      rewrite (H x (or_introl eq_refl)) in E. discriminate.
    + destruct (findIndex p l) as [i|].
      * split; [discriminate|]. intros H. exfalso.
        assert (Hn : Some i = None); [|discriminate Hn].
        apply IH. intros y Hy. apply H. now right.
      * split; [|reflexivity]. intros _ y [<-|Hy]; [exact E|].
        now apply (proj1 IH).
Qed.

(** X5. [findMinimalSEEForTarget] throws ["Subject <code> not found"]
    exactly when no subject of the list carries the code, and returns a
    plan exactly when one does, whatever the marks, the target and the
    configuration. *)
Theorem findMinimalSEEForTarget_throws_iff_absent :
  forall (subjs : list Subject) (targetSubjectCode : string)
         (targetSgpa : Q) (config : GradingConfig),
    ((forall s, In s subjs -> code s <> targetSubjectCode) <->
     findMinimalSEEForTarget subjs targetSubjectCode targetSgpa config
     = Throws (not_found_message targetSubjectCode)) /\
    ((exists s, In s subjs /\ code s = targetSubjectCode) <->
     exists plan,
       findMinimalSEEForTarget subjs targetSubjectCode targetSgpa config
       = Returns plan).
Proof.
  intros subjs c T config.
  unfold findMinimalSEEForTarget.
  destruct (findIndex (fun s => String.eqb (code s) c) subjs) as [i|] eqn:Hfind.
  - destruct (findIndex_nth _ _ _ Hfind) as (x & Hnth & Hx).
    apply String.eqb_eq in Hx. rewrite Hnth.
    assert (Hin : In x subjs) by (eapply nth_error_In; eauto).
    split; split.
    + intros H. exfalso. exact (H x Hin Hx).
    + destruct (Qle_bool T _); discriminate.
    + intros _. destruct (Qle_bool T _); eexists; reflexivity.
    + intros _. now exists x.
  - pose proof (proj1 (findIndex_none _ _) Hfind) as Hnone.
    split; split.
    + reflexivity.
    + intros _ s Hs Hc. specialize (Hnone s Hs). cbv beta in Hnone.
      apply String.eqb_neq in Hnone. contradiction.
    + intros (s & Hs & Hc). specialize (Hnone s Hs). cbv beta in Hnone.
      apply String.eqb_neq in Hnone. contradiction.
    + intros (plan & H). discriminate H.
Qed.

Lemma search_loop_sound (probe : Q -> Q) (targetSgpa : Q) (lo hi : Z)
  (initial : Q) fuel :
  forall st L,
    left st == inject_Z L -> (lo <= L)%Z -> (Qfloor (right st) <= hi)%Z ->
    search_found probe targetSgpa lo hi initial st ->
    search_found probe targetSgpa lo hi initial
      (search_loop fuel probe targetSgpa st).
Proof.
  induction fuel as [|fuel IH]; intros st L Hl Hlo Hhi Hfound; [exact Hfound|].
  simpl.
  destruct (Qle_bool (left st) (right st)) eqn:Hcond; [|exact Hfound].
  apply Qle_bool_iff in Hcond.
  apply (left_le_right st L _ Hl eq_refl) in Hcond.
  pose proof (mid_bounds st L _ Hl eq_refl Hcond) as Hmid.
  unfold Math_floor.
  set (m := Qfloor ((left st + right st) / 2)) in *.
  destruct (Qle_bool targetSgpa (probe (inject_Z m))) eqn:Hp.
  - apply Qle_bool_iff in Hp.
    apply (IH _ L); cbn [left right minSee achieved]; auto.
    + rewrite Qfloor_pred. lia.
    + right. exists m. repeat split; auto; lia.
  - apply (IH _ (m + 1)%Z); cbn [left right minSee achieved]; auto.
    + rewrite inject_Z_plus. reflexivity.
    + lia.
Qed.

(** X6. Whatever the bucket table, a plan of [findMinimalSEEForTarget] is
    sound.  For a target subject with an integer SEE in [0, maxSEE]: if
    the target is already met the plan keeps the current SEE with
    [possible = true]; a plan with [possible = true] names an integer mark
    between the current SEE and [maxSEE] at which the recomputed SGPA is
    [achievedSgpa] and reaches the target; a plan with [possible = false]
    carries the sentinel [-1] and the current SGPA. *)
Theorem findMinimalSEEForTarget_sound :
  forall (subjs : list Subject) (targetSubjectCode : string)
         (targetSgpa : Q) (config : GradingConfig)
         (targetIndex : nat) (current : Subject),
    findIndex (fun s => String.eqb (code s) targetSubjectCode) subjs
      = Some targetIndex ->
    nth_error subjs targetIndex = Some current ->
    is_int (see current) ->
    0 <= see current -> see current <= maxSEE config ->
    let probe := probe_sgpa subjs targetIndex config in
    exists plan,
      findMinimalSEEForTarget subjs targetSubjectCode targetSgpa config
        = Returns plan /\
      (targetSgpa <= sgpa (calculateSGPA subjs config) ->
         minSeeToReachTarget plan = see current /\ possible plan = true) /\
      (possible plan = true ->
         targetSgpa <= achievedSgpa plan /\
         achievedSgpa plan = probe (minSeeToReachTarget plan) /\
         see current <= minSeeToReachTarget plan <= maxSEE config /\
         is_int (minSeeToReachTarget plan)) /\
      (possible plan = false ->
         minSeeToReachTarget plan = -1 /\
         achievedSgpa plan = sgpa (calculateSGPA subjs config) /\
         sgpa (calculateSGPA subjs config) < targetSgpa).
Proof.
  intros subjs c T config i cur Hfind Hnth (z0 & Hz0) Hsee0 Hsee1 probe.
  pose proof (probe_current subjs config i cur Hnth) as Hcur.
  fold probe in Hcur.
  unfold findMinimalSEEForTarget. rewrite Hfind, Hnth.
  destruct (Qle_bool T (sgpa (calculateSGPA subjs config))) eqn:Hmet.
  - apply Qle_bool_iff in Hmet.
    eexists. split; [reflexivity|].
    cbn [minSeeToReachTarget possible achievedSgpa].
    split; [auto|]. split; [|discriminate].
    intros _. repeat split; auto; try lra.
    now exists z0.
  - apply Qle_bool_false_iff in Hmet.
    eexists. split; [reflexivity|].
    cbn [minSeeToReachTarget possible achievedSgpa].
    match goal with |- context [minSee ?st] => set (final := st) end.
    assert (Hz0pos : (0 <= z0)%Z) by (rewrite Zle_Qle, <- Hz0; exact Hsee0).
    assert (Hfound : search_found probe T z0 (Qfloor (maxSEE config))
                       (sgpa (calculateSGPA subjs config)) final).
    { subst final.
      apply (search_loop_sound probe T z0 (Qfloor (maxSEE config)) _ _ _ z0);
        cbn [left right minSee achieved]; auto; try lia.
      left. split; reflexivity. }
    split; [intros H; exfalso; lra|].
    destruct Hfound as [[Hm Ha] | (m & Hm & Hmr & Hreach & Ha)].
    + rewrite Hm, Ha. split; [discriminate|]. intros _. repeat split; auto.
    + rewrite Hm, Ha.
      assert (Hpos : Qeq_bool (inject_Z m) (-1) = false).
      { destruct (Qeq_bool (inject_Z m) (-1)) eqn:E; [|reflexivity].
        apply Qeq_bool_iff in E.
        assert (inject_Z 0 <= inject_Z m) by (rewrite <- Zle_Qle; lia).
        change (inject_Z 0) with 0 in *. exfalso. lra. }
      rewrite Hpos. split; [|discriminate].
      intros _. repeat split; auto.
      * rewrite Hz0, <- Zle_Qle. lia.
      * eapply Qle_trans; [|apply Qfloor_le]. rewrite <- Zle_Qle. lia.
      * now exists m.
Qed.

Lemma findMinimalSEEForTarget_sound_witness :
  exists plan,
    findMinimalSEEForTarget [mkSubject "S1" "First" 40 60 4;
                             mkSubject "S2" "Second" 45 80 3]
                            "S2" 8.5 DEFAULT_GRADING_CONFIG = Returns plan /\
    (possible plan = true -> 8.5 <= achievedSgpa plan).
Proof.
  destruct (findMinimalSEEForTarget_sound
              [mkSubject "S1" "First" 40 60 4; mkSubject "S2" "Second" 45 80 3]
              "S2" 8.5 DEFAULT_GRADING_CONFIG 1
              (mkSubject "S2" "Second" 45 80 3)
              eq_refl eq_refl
              (ex_intro _ 80%Z (Qeq_refl _))
              ltac:(discriminate) ltac:(discriminate))
    as (plan & Hret & _ & Hposs & _).
  exists plan. split; [exact Hret|]. intros H. apply Hposs, H.
Defined.

(** ** Marginal gains *)

Lemma mapi_from_Forall2 {A B} (R : A -> B -> Prop) (f : nat -> A -> B) :
  forall (l : list A) (i : nat),
    (forall k x, nth_error l k = Some x -> R x (f (i + k)%nat x)) ->
    Forall2 R l (mapi_from f i l).
Proof.
  induction l as [|x l IH]; intros i H; simpl; constructor.
  - specialize (H 0%nat x eq_refl). now rewrite Nat.add_0_r in H.
  - apply IH. intros k y Hk. specialize (H (S k) y Hk).
    now rewrite Nat.add_succ_r in H.
Qed.

Lemma map_at_ext_at {A} (f g : A -> A) i (l : list A) x :
  nth_error l i = Some x -> f x = g x -> map_at f i l = map_at g i l.
Proof.
  revert i. induction l as [|y l IH]; intros i Hn Hfg; [destruct i; reflexivity|].
  destruct i as [|i]; simpl in *.
  - inversion Hn; subst. now rewrite Hfg.
  - f_equal. now apply IH.
Qed.

(** Raising one subject by a mark, clamped at [maxSEE], does not lower
    the SGPA. *)
Lemma bump_not_lower subjs config i cur :
  nth_error subjs i = Some cur ->
  monotone_buckets config ->
  0 <= maxCIE config -> 0 <= maxSEE config ->
  0 <= credits cur ->
  covered config (calculateTotal (cie cur) (see cur) config) ->
  see cur <= maxSEE config ->
  sgpa (calculateSGPA subjs config)
  <= sgpa (calculateSGPA (map_at (bump_see config) i subjs) config).
Proof.
  intros Hnth Hmono Hc Hs Hcr Hcov Hle.
  rewrite (map_at_ext_at (bump_see config)
             (fun s => with_see s (Qmin (see cur + 1) (maxSEE config)))
             i subjs cur Hnth eq_refl).
  rewrite <- (probe_current subjs config i cur Hnth).
  apply (probe_mono_covered subjs config i cur Hnth Hmono Hc Hs Hcr);
    [|exact Hcov].
  apply Q.min_glb; lra.
Qed.

(** X7. [calculateMarginalGains] returns one entry per subject, in order,
    with the subject's code and name; a subject at or above [maxSEE] has
    gain [0]; and under a configuration with positive scales whose grade
    points do not decrease with [min], for subjects of non-negative
    credits whose totals the table covers, no gain is negative. *)
Theorem calculateMarginalGains_nonnegative :
  forall (subjs : list Subject) (config : GradingConfig),
    monotone_buckets config ->
    0 < maxCIE config -> 0 < maxSEE config ->
    Forall (fun s => 0 <= credits s /\
                     covered config (calculateTotal (cie s) (see s) config))
           subjs ->
    Forall2 (fun s g =>
               m_code g = code s /\ m_name g = name s /\
               0 <= m_marginalGain g /\
               (maxSEE config <= see s -> m_marginalGain g = 0))
            subjs (calculateMarginalGains subjs config).
Proof.
  intros subjs config Hmono Hc Hs Hall.
  apply Qlt_le_weak in Hc. apply Qlt_le_weak in Hs.
  rewrite Forall_forall in Hall.
  unfold calculateMarginalGains, mapi.
  apply mapi_from_Forall2. intros k x Hk. rewrite Nat.add_0_l.
  destruct (Hall x (nth_error_In _ _ Hk)) as [Hcr Hcov].
  destruct (Qle_bool (maxSEE config) (see x)) eqn:E;
    cbn [m_code m_name m_marginalGain].
  - repeat split; auto. lra.
  - apply Qle_bool_false_iff in E. repeat split.
    + pose proof (bump_not_lower subjs config k x Hk Hmono Hc Hs Hcr Hcov
                    (Qlt_le_weak _ _ E)) as Hle.
      unfold bump_see in Hle.
      rewrite <- (roundTo_zero (roundingDigits config + 2)).
      apply roundTo_mono. lra.
    + intros H. exfalso. lra.
Qed.

Lemma calculateMarginalGains_nonnegative_witness :
  Forall2 (fun s g =>
             m_code g = code s /\ m_name g = name s /\
             0 <= m_marginalGain g /\
             (100 <= see s -> m_marginalGain g = 0))
          [mkSubject "S1" "First" 40 59 4; mkSubject "S2" "Second" 45 100 3]
          (calculateMarginalGains
             [mkSubject "S1" "First" 40 59 4; mkSubject "S2" "Second" 45 100 3]
             DEFAULT_GRADING_CONFIG).
Proof.
  apply (calculateMarginalGains_nonnegative
           [mkSubject "S1" "First" 40 59 4; mkSubject "S2" "Second" 45 100 3]
           DEFAULT_GRADING_CONFIG default_monotone eq_refl eq_refl).
  repeat constructor; try discriminate;
    exists (mkBucket 0 4 "F"); (split; [simpl; tauto | discriminate]).
Defined.

(** ** Loops over the SEE range: the curve and the heatmap *)

Lemma mark_at_eq (step : Q) n :
  forall x, mark_at x step n == x + inject_Z (Z.of_nat n) * step.
Proof.
  induction n as [|n IH]; intros x.
  - simpl. change (inject_Z 0) with 0. ring.
  - cbn [mark_at]. rewrite IH, Nat2Z.inj_succ. unfold Z.succ.
    rewrite inject_Z_plus. change (inject_Z 1) with 1. ring.
Qed.

Lemma marks_from_length x step n : List.length (marks_from x step n) = n.
Proof. revert x. induction n; intros x; simpl; auto. Qed.

Lemma marks_from_nth step n :
  forall x k, (k < n)%nat ->
    nth_error (marks_from x step n) k = Some (mark_at x step k).
Proof.
  induction n as [|n IH]; intros x k Hk; [lia|].
  destruct k as [|k]; [reflexivity|]. simpl. apply IH. lia.
Qed.

Lemma marks_from_in x step n m :
  In m (marks_from x step n) -> exists k, (k < n)%nat /\ m = mark_at x step k.
Proof.
  revert x. induction n as [|n IH]; intros x H; [destruct H|].
  destruct H as [<-|H].
  - exists 0%nat. split; [lia | reflexivity].
  - destruct (IH _ H) as (k & Hk & ->). exists (S k). split; [lia | reflexivity].
Qed.

(** A loop with a positive step whose body always succeeds makes exactly
    the passes whose mark is at most [maxv]. *)
Lemma for_upto_run {A} (step maxv : Q) (body : Q -> A -> option A)
  (g : Q -> A -> A) n :
  forall fuel x acc,
    (forall k, (k < n)%nat -> mark_at x step k <= maxv) ->
    maxv < mark_at x step n ->
    (forall m a, In m (marks_from x step n) -> body m a = Some (g m a)) ->
    (n < fuel)%nat ->
    for_upto fuel step maxv body x acc
    = Some (fold_left (fun a m => g m a) (marks_from x step n) acc).
Proof.
  induction n as [|n IH]; intros fuel x acc Hin Hout Hbody Hfuel;
    (destruct fuel as [|fuel]; [lia|]); cbn [for_upto marks_from fold_left].
  - simpl in Hout. apply Qle_bool_false_iff in Hout. now rewrite Hout.
  - pose proof (Hin 0%nat ltac:(lia)) as H0. simpl in H0.
    apply Qle_bool_iff in H0. rewrite H0.
    rewrite (Hbody x acc (or_introl eq_refl)).
    apply IH.
    + intros k Hk. apply (Hin (S k)). lia.
    + exact Hout.
    + intros m a Hm. apply Hbody. now right.
    + lia.
Qed.

(** With a step that is not positive the loop never ends. *)
Lemma for_upto_never {A} (step maxv : Q) (body : Q -> A -> option A) fuel :
  forall x acc,
    step <= 0 -> x <= maxv -> for_upto fuel step maxv body x acc = None.
Proof.
  induction fuel as [|fuel IH]; intros x acc Hstep Hx; [reflexivity|].
  cbn [for_upto]. apply Qle_bool_iff in Hx. rewrite Hx.
  destruct (body x acc); [|reflexivity].
  apply IH; [exact Hstep|]. apply Qle_bool_iff in Hx. lra.
Qed.

Lemma passes_marks (step maxv : Q) :
  0 < step ->
  (forall k, (k < passes step maxv)%nat -> mark_at 0 step k <= maxv) /\
  maxv < mark_at 0 step (passes step maxv).
Proof.
  intros Hstep. unfold passes.
  assert (Hs0 : ~ step == 0) by (intros H; rewrite H in Hstep; lra).
  pose proof (Qfloor_le (maxv / step)) as Hf1.
  pose proof (Qlt_floor (maxv / step)) as Hf2.
  assert (Hdiv : maxv / step * step == maxv) by (field; exact Hs0).
  set (f := Qfloor (maxv / step)) in *.
  split.
  - intros k Hk. rewrite mark_at_eq.
    assert (Hkf : (Z.of_nat k <= f)%Z) by lia.
    rewrite Zle_Qle in Hkf.
    assert (H : inject_Z (Z.of_nat k) * step <= maxv / step * step).
    { apply Qmult_le_compat_r; lra. }
    lra.
  - rewrite mark_at_eq.
    destruct (Z_lt_le_dec f 0) as [Hneg|Hpos].
    + replace (Z.to_nat (f + 1)) with 0%nat by lia.
      change (inject_Z (Z.of_nat 0)) with 0.
      assert (Hf : inject_Z (f + 1) <= 0)
        by (change 0 with (inject_Z 0); rewrite <- Zle_Qle; lia).
      assert (H : maxv / step * step < inject_Z (f + 1) * step).
      { apply Qmult_lt_compat_r; assumption. }
      assert (inject_Z (f + 1) * step <= 0 * step)
        by (apply Qmult_le_compat_r; lra).
      lra.
    + rewrite Z2Nat.id by lia.
      assert (H : maxv / step * step < inject_Z (f + 1) * step).
      { apply Qmult_lt_compat_r; assumption. }
      lra.
Qed.

Lemma fold_left_snoc {A B} (f : A -> B) (l : list A) (acc : list B) :
  fold_left (fun a m => a ++ [f m]) l acc = acc ++ map f l.
Proof.
  revert acc. induction l as [|x l IH]; intros acc; simpl.
  - now rewrite app_nil_r.
  - rewrite IH, <- app_assoc. reflexivity.
Qed.



(** X9. [generateSGPACurve] returns the empty curve when no subject
    carries the code, without entering its loop; for a subject of the list,
    a [step] that is zero or negative and [maxSEE >= 0], its loop never
    ends: no amount of fuel yields a result. *)
Theorem generateSGPACurve_unknown_or_endless :
  forall (subjs : list Subject) (targetSubjectCode : string) (step : Q)
         (config : GradingConfig) (fuel : nat),
    ((forall s, In s subjs -> code s <> targetSubjectCode) ->
     generateSGPACurve fuel subjs targetSubjectCode step config = Some []) /\
    ((exists s, In s subjs /\ code s = targetSubjectCode) ->
     step <= 0 -> 0 <= maxSEE config ->
     generateSGPACurve fuel subjs targetSubjectCode step config = None).
Proof.
  intros subjs c step config fuel. unfold generateSGPACurve. split.
  - intros Habs.
    assert (Hnone : findIndex (fun s => String.eqb (code s) c) subjs = None).
    { apply findIndex_none. intros s Hs. apply String.eqb_neq. now apply Habs. }
    now rewrite Hnone.
  - intros (s & Hs & Hc) Hstep Hmax.
    destruct (findIndex (fun s => String.eqb (code s) c) subjs) as [i|] eqn:Hfind.
    + destruct (findIndex_nth _ _ _ Hfind) as (x & Hnth & _). rewrite Hnth.
      now apply for_upto_never.
    + exfalso. pose proof (proj1 (findIndex_none _ _) Hfind s Hs) as H.
      cbv beta in H. apply String.eqb_neq in H. contradiction.
Qed.

Lemma generateSGPACurve_unknown_or_endless_witness :
  generateSGPACurve 50 [mkSubject "S1" "First" 40 60 4] "S9" 1
                    DEFAULT_GRADING_CONFIG = Some [] /\
  generateSGPACurve 50 [mkSubject "S1" "First" 40 60 4] "S1" 0
                    DEFAULT_GRADING_CONFIG = None.
Proof.
  split.
  - apply (proj1 (generateSGPACurve_unknown_or_endless
                    [mkSubject "S1" "First" 40 60 4] "S9" 1
                    DEFAULT_GRADING_CONFIG 50)).
    intros s [<-|[]]. discriminate.
  - apply (proj2 (generateSGPACurve_unknown_or_endless
                    [mkSubject "S1" "First" 40 60 4] "S1" 0
                    DEFAULT_GRADING_CONFIG 50)).
    + exists (mkSubject "S1" "First" 40 60 4). split; [now left | reflexivity].
    + discriminate.
    + discriminate.
Defined.

Lemma mark_at_ge x step k : 0 <= step -> x <= mark_at x step k.
Proof.
  intros Hstep. rewrite mark_at_eq.
  assert (0 <= inject_Z (Z.of_nat k) * step).
  { apply Qmult_le_0_compat; [|exact Hstep].
    change 0 with (inject_Z 0). rewrite <- Zle_Qle. lia. }
  lra.
Qed.

Lemma map_marks_sorted {B} (R : B -> B -> Prop) (f : Q -> B) (step : Q) n :
  0 <= step ->
  forall x,
    (forall a b, x <= a -> a <= b -> R (f a) (f b)) ->
    StronglySorted R (map f (marks_from x step n)).
Proof.
  intros Hstep. induction n as [|n IH]; intros x HR; simpl; constructor.
  - apply IH. intros a b Ha Hab. apply HR; lra.
  - apply Forall_forall. intros y Hy. apply in_map_iff in Hy.
    destruct Hy as (m & <- & Hm).
    destruct (marks_from_in _ _ _ _ Hm) as (k & _ & ->).
    apply HR; [lra|].
    pose proof (mark_at_ge (x + step) step k Hstep). lra.
Qed.

(** X10. Under a configuration with positive scales whose grade points do
    not decrease with [min], for a subject of non-negative credits whose
    total at SEE [0] the table covers, the curve of [generateSGPACurve]
    never falls: from each point to every later one neither the SGPA nor
    the grade point decreases. *)
Theorem generateSGPACurve_nondecreasing :
  forall (subjs : list Subject) (targetSubjectCode : string) (step : Q)
         (config : GradingConfig) (targetIndex : nat) (target : Subject)
         (fuel : nat),
    findIndex (fun s => String.eqb (code s) targetSubjectCode) subjs
      = Some targetIndex ->
    nth_error subjs targetIndex = Some target ->
    monotone_buckets config ->
    0 < maxCIE config -> 0 < maxSEE config ->
    0 <= credits target ->
    covered config (calculateTotal (cie target) 0 config) ->
    0 < step ->
    (passes step (maxSEE config) < fuel)%nat ->
    exists curve,
      generateSGPACurve fuel subjs targetSubjectCode step config = Some curve /\
      StronglySorted curve_le curve.
Proof.
  intros subjs c step config i target fuel Hfind Hnth Hmono Hc Hs Hcr Hcov
         Hstep Hfuel.
  apply Qlt_le_weak in Hc. apply Qlt_le_weak in Hs.
  destruct (passes_marks step (maxSEE config) Hstep) as [Hin Hout].
  unfold generateSGPACurve. rewrite Hfind, Hnth.
  rewrite (for_upto_run step (maxSEE config) _
             (fun see curve =>
                curve ++ [curve_point subjs i (cie target) config see])
             _ fuel 0 [] Hin Hout (fun _ _ _ => eq_refl) Hfuel).
  rewrite fold_left_snoc, app_nil_l.
  eexists. split; [reflexivity|].
  apply map_marks_sorted; [lra|].
  intros a b Ha Hab.
  assert (Hcova : covered config (calculateTotal (cie target) a config)).
  { eapply covered_up; [exact Hcov|]. now apply calculateTotal_mono. }
  split; cbn [cp_sgpa cp_gp curve_point].
  - apply (probe_mono_covered subjs config i target Hnth Hmono Hc Hs Hcr
             a b Hab Hcova).
  - apply gpForTotal_mono; auto. now apply calculateTotal_mono.
Qed.

Lemma generateSGPACurve_nondecreasing_witness :
  exists curve,
    generateSGPACurve 10 [mkSubject "S1" "First" 40 60 4;
                          mkSubject "S2" "Second" 45 80 3]
                      "S2" 20 DEFAULT_GRADING_CONFIG = Some curve /\
    StronglySorted curve_le curve.
Proof.
  apply (generateSGPACurve_nondecreasing
           [mkSubject "S1" "First" 40 60 4; mkSubject "S2" "Second" 45 80 3]
           "S2" 20 DEFAULT_GRADING_CONFIG 1
           (mkSubject "S2" "Second" 45 80 3) 10
           eq_refl eq_refl default_monotone eq_refl eq_refl).
  - discriminate.
  - exists (mkBucket 0 4 "F"). split; [simpl; tauto | discriminate].
  - reflexivity.
  - vm_compute. lia.
Defined.

Lemma fold_left_rows {A B} (row : A -> list B) (l : list A) (acc : list B) :
  fold_left (fun h a => h ++ row a) l acc = acc ++ flat_map row l.
Proof.
  revert acc. induction l as [|x l IH]; intros acc; simpl.
  - now rewrite app_nil_r.
  - rewrite IH, <- app_assoc. reflexivity.
Qed.

Lemma flat_map_rows_length {A B} (row : A -> list B) (l : list A) n :
  (forall a, List.length (row a) = n) ->
  List.length (flat_map row l) = (List.length l * n)%nat.
Proof.
  intros H. induction l as [|x l IH]; simpl; [reflexivity|].
  now rewrite length_app, H, IH.
Qed.

Lemma mapi_from_pair_same (i : nat) (a b : Q) :
  forall (l : list Subject) (k : nat),
    mapi_from (fun j s => if (j =? i)%nat then with_see s a
                          else if (j =? i)%nat then with_see s b else s) k l
    = if (k <=? i)%nat then map_at (fun s => with_see s a) (i - k) l else l.
Proof.
  induction l as [|x l IH]; intros k; simpl.
  - destruct (k <=? i)%nat; [destruct (i - k)%nat|]; reflexivity.
  - rewrite IH.
    destruct (k =? i)%nat eqn:E.
    + apply Nat.eqb_eq in E. subst k.
      rewrite Nat.leb_refl, Nat.sub_diag.
      assert (Hs : (S i <=? i)%nat = false) by (apply Nat.leb_gt; lia).
      now rewrite Hs.
    + apply Nat.eqb_neq in E.
      destruct (k <=? i)%nat eqn:Hle.
      * apply Nat.leb_le in Hle.
        assert (Hs : (S k <=? i)%nat = true) by (apply Nat.leb_le; lia).
        rewrite Hs. replace (i - k)%nat with (S (i - S k)) by lia.
        reflexivity.
      * apply Nat.leb_gt in Hle.
        assert (Hs : (S k <=? i)%nat = false) by (apply Nat.leb_gt; lia).
        now rewrite Hs.
Qed.



(** ** The ceiling *)

Lemma ceiling_eq subjs config :
  maxSgpaIfAll100 (calculateSGPA subjs config)
  = sgpa (calculateSGPA (map (fun s => with_see s (maxSEE config)) subjs)
                        config).
Proof.
  unfold calculateSGPA; cbn [sgpa maxSgpaIfAll100]. f_equal.
  set (mx := map (fun s => with_see s (maxSEE config)) subjs).
  assert (Hc : reduce_sum r_credits (map (subjectResult config) subjs)
               = reduce_sum r_credits (map (subjectResult config) mx)).
  { subst mx. rewrite map_map.
    rewrite !(reduce_sum_map _ r_credits). reflexivity. }
  assert (Hw : reduce_sum (fun w : Q => w) (map (maxWeightedOf config) mx)
               = reduce_sum r_weighted (map (subjectResult config) mx)).
  { rewrite (reduce_sum_map _ (fun w : Q => w)).
    rewrite (reduce_sum_map _ r_weighted). reflexivity. }
  rewrite Hc, Hw. reflexivity.
Qed.

(** X12. The ceiling [maxSgpaIfAll100] that [calculateSGPA] reports is the
    SGPA [calculateSGPA] computes when every subject's SEE is set to
    [maxSEE], and it is the [bestAttainableSgpa] of every global plan. *)
Theorem ceiling_is_sgpa_at_max :
  forall (subjs : list Subject) (targetSgpa : Q) (config : GradingConfig),
    maxSgpaIfAll100 (calculateSGPA subjs config)
    = sgpa (calculateSGPA (map (fun s => with_see s (maxSEE config)) subjs)
                          config) /\
    bestAttainableSgpa (greedyGlobalPlan subjs targetSgpa config)
    = maxSgpaIfAll100 (calculateSGPA subjs config).
Proof.
  intros subjs T config. split; [apply ceiling_eq|].
  unfold greedyGlobalPlan; cbn [bestAttainableSgpa].
  symmetry. apply ceiling_eq.
Qed.

Lemma weighted_le_to_max config s :
  monotone_buckets config -> 0 <= maxCIE config -> 0 <= maxSEE config ->
  ceiling_ready config s ->
  weighted_le config s (with_see s (maxSEE config)).
Proof.
  intros Hmono Hc Hs (Hcr & Hcov & Hle).
  split; [reflexivity|]. cbn [credits with_see].
  apply Qmult_le_compat_r; [|exact Hcr].
  now apply gradePoint_mono.
Qed.

(** X13. Under a configuration with positive scales whose grade points do
    not decrease with [min], for subjects of non-negative credits with
    covered totals and SEE at most [maxSEE], the SGPA never exceeds the
    ceiling [maxSgpaIfAll100]. *)
Theorem sgpa_at_most_ceiling :
  forall (subjs : list Subject) (config : GradingConfig),
    monotone_buckets config ->
    0 < maxCIE config -> 0 < maxSEE config ->
    Forall (ceiling_ready config) subjs ->
    sgpa (calculateSGPA subjs config)
    <= maxSgpaIfAll100 (calculateSGPA subjs config).
Proof.
  intros subjs config Hmono Hc Hs Hall.
  apply Qlt_le_weak in Hc. apply Qlt_le_weak in Hs.
  rewrite ceiling_eq. apply sgpa_mono.
  induction Hall as [|s l Hs' _ IH]; simpl; constructor; auto.
  now apply weighted_le_to_max.
Qed.

Lemma sgpa_at_most_ceiling_witness :
  sgpa (calculateSGPA [mkSubject "S1" "First" 40 60 4;
                       mkSubject "S2" "Second" 45 80 3]
                      DEFAULT_GRADING_CONFIG)
  <= maxSgpaIfAll100
       (calculateSGPA [mkSubject "S1" "First" 40 60 4;
                       mkSubject "S2" "Second" 45 80 3]
                      DEFAULT_GRADING_CONFIG).
Proof.
  apply (sgpa_at_most_ceiling
           [mkSubject "S1" "First" 40 60 4; mkSubject "S2" "Second" 45 80 3]
           DEFAULT_GRADING_CONFIG default_monotone eq_refl eq_refl).
  repeat constructor; try discriminate;
    exists (mkBucket 0 4 "F"); (split; [simpl; tauto | discriminate]).
Defined.

(** ** What the greedy planner keeps *)

Lemma marginal_step_pick ws currentSgpa config best i :
  (fst best = None \/
   exists j wj, fst best = Some j /\ nth_error ws j = Some wj /\
                see wj < maxSEE config) ->
  let best' := marginal_step ws currentSgpa config best i in
  fst best' = None \/
  exists j wj, fst best' = Some j /\ nth_error ws j = Some wj /\
               see wj < maxSEE config.
Proof.
  intros H. unfold marginal_step.
  destruct (nth_error ws i) as [wi|] eqn:Hn; [|exact H].
  destruct (Qle_bool (maxSEE config) (see wi)) eqn:E; [exact H|].
  apply Qle_bool_false_iff in E.
  match goal with |- context [if ?c then _ else _] => destruct c end;
    [|exact H].
  right. exists i, wi. repeat split; auto.
Qed.

Lemma best_subject_pick ws currentSgpa config i :
  best_subject ws currentSgpa config = Some i ->
  exists wi, nth_error ws i = Some wi /\ see wi < maxSEE config.
Proof.
  unfold best_subject.
  assert (H : forall idxs best,
             (fst best = None \/
              exists j wj, fst best = Some j /\ nth_error ws j = Some wj /\
                           see wj < maxSEE config) ->
             let r := fold_left (marginal_step ws currentSgpa config) idxs best in
             fst r = None \/
             exists j wj, fst r = Some j /\ nth_error ws j = Some wj /\
                          see wj < maxSEE config).
  { induction idxs as [|k idxs IH]; intros best Hb; [exact Hb|].
    simpl. apply IH. now apply marginal_step_pick. }
  intros Hbest.
  destruct (H (seq 0 (List.length ws)) (None, 0) (or_introl eq_refl))
    as [Hn | (j & wj & Hj & Hnth & Hlt)].
  - rewrite Hbest in Hn. discriminate.
  - rewrite Hbest in Hj. inversion Hj; subst. now exists wj.
Qed.

Lemma next_see_bounds subject config :
  see subject < maxSEE config ->
  see subject < next_see subject config /\
  next_see subject config <= maxSEE config.
Proof.
  intros Hlt. unfold next_see.
  destruct (find _ (calculateCriticalSEEValues (cie subject) config))
    as [c|] eqn:Hfind.
  - apply find_some in Hfind. destruct Hfind as [_ Hp].
    apply andb_true_iff in Hp. destruct Hp as [Hp _].
    apply Qlt_bool_iff in Hp.
    split; [now apply Q.min_glb_lt | apply Q.le_min_r].
  - split; [apply Q.min_glb_lt; lra | apply Q.le_min_r].
Qed.

Lemma Forall2_update {A B} (R : A -> B -> Prop) (f : B -> B) :
  forall (l : list A) (l' : list B) i,
    Forall2 R l l' ->
    (forall a b, nth_error l' i = Some b -> R a b -> R a (f b)) ->
    Forall2 R l (map_at f i l').
Proof.
  intros l l' i H. revert i.
  induction H as [|a b l l' Hab Hrest IH]; intros i Hf;
    [destruct i; constructor|].
  destruct i as [|i]; simpl.
  - constructor; [apply Hf; [reflexivity | exact Hab] | exact Hrest].
  - constructor; [exact Hab|].
    apply IH. intros a' b' Hn. apply Hf. exact Hn.
Qed.

Lemma greedy_loop_inv subjs targetSgpa config fuel :
  forall st,
    greedy_inv subjs config st ->
    greedy_inv subjs config (greedy_loop fuel targetSgpa config st).
Proof.
  induction fuel as [|fuel IH]; intros st Hinv; [exact Hinv|].
  cbn [greedy_loop].
  destruct (Qlt_bool (sgpa (currentResult st)) targetSgpa
            && (iterations st <? maxIterations)%nat); [|exact Hinv].
  destruct Hinv as (Hraised & Hres & Hsteps).
  assert (Hstop : forall n,
             greedy_inv subjs config
               {| workingSubjects := workingSubjects st;
                  g_steps := g_steps st;
                  currentResult := currentResult st;
                  iterations := n |})
    by (intros n; repeat split; assumption).
  destruct (forallb _ (workingSubjects st)); [apply Hstop|].
  destruct (best_subject _ _ config) as [b|] eqn:Hbest; [|apply Hstop].
  destruct (best_subject_pick _ _ _ _ Hbest) as (wb & Hnth & Hlt).
  rewrite Hnth.
  destruct (next_see_bounds wb config Hlt) as [Hup Hmax].
  set (raisedTo := next_see wb config) in *.
  match goal with
  | |- context [if ?c then ?a else _] =>
      assert (Hst : greedy_inv subjs config a); [|destruct c]
  end.
  - unfold greedy_inv; cbn [workingSubjects g_steps currentResult].
    split; [|split; [reflexivity|]].
    + apply Forall2_update; [exact Hraised|].
      intros s w Hw (Hcode & Hname & Hcie & Hcr & Hlo & Hhi).
      rewrite Hnth in Hw. inversion Hw; subst w.
      unfold raised; cbn [code name cie credits see with_see].
      repeat split; auto; try lra.
      eapply Qle_trans; [exact Hmax | apply Q.le_max_r].
    + apply Forall_app. split; [exact Hsteps|].
      constructor; [|constructor].
      unfold step_ok; cbn [fromSee toSee increaseSeeBy].
      repeat split; auto.
  - exact Hst.
  - apply IH, Hst.
Qed.

Lemma greedy_init_inv subjs config :
  greedy_inv subjs config (greedy_init subjs config).
Proof.
  unfold greedy_inv, greedy_init; cbn [workingSubjects g_steps currentResult].
  split; [|split; [reflexivity | constructor]].
  rewrite map_id. apply Forall2_same. intros s.
  unfold raised. repeat split; try lra. apply Q.le_max_l.
Qed.

Lemma greedy_loop_met fuel targetSgpa config st :
  targetSgpa <= sgpa (currentResult st) ->
  greedy_loop fuel targetSgpa config st = st.
Proof.
  intros H. destruct fuel as [|fuel]; [reflexivity|]. cbn [greedy_loop].
  assert (E : Qlt_bool (sgpa (currentResult st)) targetSgpa = false)
    by (apply Qlt_bool_false_iff; exact H).
  now rewrite E.
Qed.

(** X14. [greedyGlobalPlan] only ever raises SEE marks.  Its [finalSgpa]
    is the SGPA of the input subjects with some SEE marks raised, none
    lowered and none raised beyond [maxSEE], codes, names, CIE and credits
    untouched; every step strictly raises a mark, to at most [maxSEE], and
    [increaseSeeBy] is the difference.  When the target is already met the
    plan has no step, reports the current SGPA and [targetReached]. *)
Theorem greedyGlobalPlan_only_raises :
  forall (subjs : list Subject) (targetSgpa : Q) (config : GradingConfig),
    let plan := greedyGlobalPlan subjs targetSgpa config in
    (exists ws,
        Forall2 (raised config) subjs ws /\
        finalSgpa plan = sgpa (calculateSGPA ws config)) /\
    Forall (step_ok config) (steps plan) /\
    (targetSgpa <= sgpa (calculateSGPA subjs config) ->
     steps plan = [] /\ targetReached plan = true /\
     finalSgpa plan = sgpa (calculateSGPA subjs config)).
Proof.
  intros subjs T config plan. subst plan.
  assert (Hfinal : greedy_final subjs T config
                   = greedy_loop maxIterations T config
                       (greedy_init subjs config)) by reflexivity.
  pose proof (greedy_loop_inv subjs T config maxIterations _
                (greedy_init_inv subjs config)) as Hinv.
  rewrite <- Hfinal in Hinv.
  destruct Hinv as (Hraised & Hres & Hsteps).
  unfold greedyGlobalPlan; cbn [steps finalSgpa targetReached].
  split; [|split; [exact Hsteps|]].
  - exists (workingSubjects (greedy_final subjs T config)).
    split; [exact Hraised | now rewrite Hres].
  - intros Hmet.
    assert (Hinit : T <= sgpa (currentResult (greedy_init subjs config))).
    { unfold greedy_init; cbn [currentResult]. now rewrite map_id. }
    rewrite Hfinal, (greedy_loop_met _ _ _ _ Hinit).
    unfold greedy_init; cbn [g_steps currentResult]. rewrite map_id.
    repeat split. now apply Qle_bool_iff.
Qed.

Lemma greedyGlobalPlan_only_raises_witness :
  steps (greedyGlobalPlan [mkSubject "S1" "First" 40 60 4;
                           mkSubject "S2" "Second" 45 80 3]
                          8 DEFAULT_GRADING_CONFIG) = [].
Proof.
  apply (greedyGlobalPlan_only_raises
           [mkSubject "S1" "First" 40 60 4; mkSubject "S2" "Second" 45 80 3]
           8 DEFAULT_GRADING_CONFIG).
  discriminate.
Defined.

Lemma raised_weighted config s w :
  monotone_buckets config -> 0 <= maxCIE config -> 0 <= maxSEE config ->
  ceiling_ready config s -> raised config s w ->
  weighted_le config s w /\
  weighted_le config w (with_see s (maxSEE config)).
Proof.
  intros Hmono Hc Hs (Hcr & Hcov & Hle) (_ & _ & Hcie & Hcred & Hlo & Hhi).
  assert (Hhi' : see w <= maxSEE config).
  { eapply Qle_trans; [exact Hhi|]. apply Q.max_lub; lra. }
  assert (Hcovw : covered config (calculateTotal (cie s) (see w) config)).
  { eapply covered_up; [exact Hcov|]. now apply calculateTotal_mono. }
  unfold weighted_le, gradePoint; cbn [cie see credits with_see].
  rewrite Hcie, Hcred.
  split; (split; [reflexivity|]); apply Qmult_le_compat_r; auto;
    apply gpForTotal_mono; auto; now apply calculateTotal_mono.
Qed.

(** X15. Under a configuration with positive scales whose grade points do
    not decrease with [min], for subjects of non-negative credits with
    covered totals and SEE at most [maxSEE], the plan of
    [greedyGlobalPlan] ends at an SGPA that is at least the current SGPA
    and at most [bestAttainableSgpa]; so a target above the ceiling is
    never reported as reached. *)
Theorem greedyGlobalPlan_between_current_and_ceiling :
  forall (subjs : list Subject) (targetSgpa : Q) (config : GradingConfig),
    monotone_buckets config ->
    0 < maxCIE config -> 0 < maxSEE config ->
    Forall (ceiling_ready config) subjs ->
    let plan := greedyGlobalPlan subjs targetSgpa config in
    sgpa (calculateSGPA subjs config) <= finalSgpa plan /\
    finalSgpa plan <= bestAttainableSgpa plan /\
    (bestAttainableSgpa plan < targetSgpa -> targetReached plan = false).
Proof.
  intros subjs T config Hmono Hc Hs Hall plan. subst plan.
  apply Qlt_le_weak in Hc. apply Qlt_le_weak in Hs.
  assert (Hfinal : greedy_final subjs T config
                   = greedy_loop maxIterations T config
                       (greedy_init subjs config)) by reflexivity.
  pose proof (greedy_loop_inv subjs T config maxIterations _
                (greedy_init_inv subjs config)) as Hinv.
  rewrite <- Hfinal in Hinv.
  destruct Hinv as (Hraised & Hres & _).
  unfold greedyGlobalPlan;
    cbn [steps finalSgpa targetReached bestAttainableSgpa].
  rewrite Hres.
  set (ws := workingSubjects (greedy_final subjs T config)) in *.
  assert (Hboth : Forall2 (weighted_le config) subjs ws /\
                  Forall2 (weighted_le config) ws
                    (map (fun s => with_see s (maxSEE config)) subjs)).
  { clearbody ws. clear Hres Hfinal.
    induction Hraised as [|s w l l' Hsw _ IH]; [split; constructor|].
    inversion Hall as [|? ? Hs' Hall']; subst.
    destruct (IH Hall') as [IH1 IH2].
    destruct (raised_weighted config s w Hmono Hc Hs Hs' Hsw) as [H1 H2].
    split; simpl; constructor; auto. }
  destruct Hboth as [Hlow Hhigh].
  pose proof (sgpa_mono config _ _ Hlow) as H1.
  pose proof (sgpa_mono config _ _ Hhigh) as H2.
  repeat split; auto.
  intros Hlt. apply Qle_bool_false_iff. lra.
Qed.

Lemma greedyGlobalPlan_between_current_and_ceiling_witness :
  let plan := greedyGlobalPlan [mkSubject "S1" "First" 40 79 4;
                                mkSubject "S2" "Second" 45 80 3]
                               9 DEFAULT_GRADING_CONFIG in
  finalSgpa plan <= bestAttainableSgpa plan.
Proof.
  apply (greedyGlobalPlan_between_current_and_ceiling
           [mkSubject "S1" "First" 40 79 4; mkSubject "S2" "Second" 45 80 3]
           9 DEFAULT_GRADING_CONFIG default_monotone eq_refl eq_refl).
  repeat constructor; try discriminate;
    exists (mkBucket 0 4 "F"); (split; [simpl; tauto | discriminate]).
Defined.

(** ** The backend's figures stay on the grade scale *)

Lemma getGradePoint_range (t : Q) :
  4 <= Backend.getGradePoint t <= 10.
Proof.
  unfold Backend.getGradePoint.
  repeat match goal with
         | |- context [Qle_bool ?a t] => destruct (Qle_bool a t)
         end; split; discriminate.
Qed.

Lemma getGradePoint_mono (t1 t2 : Q) :
  t1 <= t2 -> Backend.getGradePoint t1 <= Backend.getGradePoint t2.
Proof.
  intros H. unfold Backend.getGradePoint.
  repeat match goal with
         | |- context [Qle_bool ?a ?t] =>
             let E := fresh "E" in
             destruct (Qle_bool a t) eqn:E;
             [apply Qle_bool_iff in E | apply Qle_bool_false_iff in E]
         end; try discriminate; exfalso; lra.
Qed.

Lemma scaleSee_mono (v1 v2 : Q) :
  v1 <= v2 -> Backend.scaleSee v1 <= Backend.scaleSee v2.
Proof.
  intros H. unfold Backend.scaleSee, Qdiv.
  apply Qmult_le_compat_r; [exact H | discriminate].
Qed.

(** X16. [computeSubjectMetrics] always yields a grade point between [4]
    and [10], whatever the marks; raising the SEE, all else equal, lowers
    neither the total nor the grade point nor, for non-negative credits,
    the weighted points. *)
Theorem computeSubjectMetrics_scale :
  forall (cie see see' credits : Q),
    let m := Backend.computeSubjectMetrics cie see credits in
    let m' := Backend.computeSubjectMetrics cie see' credits in
    4 <= Backend.gp m <= 10 /\
    (see <= see' ->
     Backend.total m <= Backend.total m' /\
     Backend.gp m <= Backend.gp m' /\
     (0 <= credits -> Backend.weighted m <= Backend.weighted m')).
Proof.
  intros cie see see' credits m m'. subst m m'.
  unfold Backend.computeSubjectMetrics;
    cbn [Backend.gp Backend.total Backend.weighted].
  split; [apply getGradePoint_range|].
  intros Hle. pose proof (scaleSee_mono _ _ Hle) as Hs.
  assert (Hgp : Backend.getGradePoint (cie + Backend.scaleSee see)
                <= Backend.getGradePoint (cie + Backend.scaleSee see'))
    by (apply getGradePoint_mono; lra).
  repeat split; [lra | exact Hgp |].
  intros Hcr. now apply Qmult_le_compat_r.
Qed.

Lemma computeSubjectMetrics_scale_witness :
  Backend.gp (Backend.computeSubjectMetrics 40 60 4)
  <= Backend.gp (Backend.computeSubjectMetrics 40 80 4).
Proof.
  refine (proj1 (proj2 (proj2 (computeSubjectMetrics_scale 40 60 80 4) _))).
  discriminate.
Defined.

Lemma Qsum_terms_bounds {A} (c t : A -> Q) (l : list A) :
  (forall x, In x l -> 0 <= c x /\ 4 * c x <= t x /\ t x <= 10 * c x) ->
  0 <= Qsum (map c l) /\
  4 * Qsum (map c l) <= Qsum (map t l) /\
  Qsum (map t l) <= 10 * Qsum (map c l).
Proof.
  induction l as [|x l IH]; intros H; simpl.
  - repeat split; lra.
  - destruct (H x (or_introl eq_refl)) as (H0 & H1 & H2).
    destruct IH as (I0 & I1 & I2).
    { intros y Hy. apply H. now right. }
    repeat split; lra.
Qed.

Lemma Qsum_terms_le {A} (t t' : A -> Q) (l : list A) :
  (forall x, In x l -> t x <= t' x) -> Qsum (map t l) <= Qsum (map t' l).
Proof.
  induction l as [|x l IH]; intros H; simpl; [lra|].
  pose proof (H x (or_introl eq_refl)).
  assert (Qsum (map t l) <= Qsum (map t' l))
    by (apply IH; intros y Hy; apply H; now right).
  lra.
Qed.

Lemma ratio_on_scale (w c : Q) :
  0 <= c -> ~ c == 0 -> 4 * c <= w -> w <= 10 * c ->
  4 <= Backend.round2 (w / c) <= 10.
Proof.
  intros Hc Hnz Hlo Hhi.
  assert (Hpos : 0 < c).
  { destruct (Qlt_le_dec 0 c) as [H|H]; [exact H|].
    exfalso. apply Hnz. lra. }
  assert (H4 : 4 <= w / c) by (apply Qle_shift_div_l; assumption).
  assert (H10 : w / c <= 10) by (apply Qle_shift_div_r; assumption).
  rewrite round2_roundTo. split.
  - assert (E : roundTo 4 2 == 4) by reflexivity.
    apply Qle_trans with (roundTo 4 2); [rewrite E; lra|].
    now apply roundTo_mono.
  - assert (E : roundTo 10 2 == 10) by reflexivity.
    apply Qle_trans with (roundTo 10 2); [|rewrite E; lra].
    now apply roundTo_mono.
Qed.

Lemma aggregateSGPA_fields (subjs : list Backend.Subject) :
  let c := reduce_sum Backend.credits subjs in
  Backend.totalCredits (Backend.aggregateSGPA subjs) = c /\
  Backend.sgpa (Backend.aggregateSGPA subjs)
  = Backend.round2
      (if Backend.truthy c
       then reduce_sum (fun s => backend_gp s * Backend.credits s) subjs / c
       else 0) /\
  Backend.maxSgpaIfAll100 (Backend.aggregateSGPA subjs)
  = Backend.round2
      (if Backend.truthy c
       then reduce_sum (fun s => backend_max_gp s * Backend.credits s) subjs / c
       else 0).
Proof.
  intros c. subst c.
  unfold Backend.aggregateSGPA;
    cbn [Backend.totalCredits Backend.sgpa Backend.maxSgpaIfAll100].
  rewrite (reduce_sum_map _ (fun b : Q * Q * Q => snd b)).
  rewrite (reduce_sum_map _ (fun b : Q * Q * Q => snd (fst b))).
  repeat split.
Qed.

Lemma aggregateSGPA_scale_bounds :
  forall (subjs : list Backend.Subject),
    Forall (fun s => 0 <= Backend.credits s) subjs ->
    ~ Qsum (map Backend.credits subjs) == 0 ->
    let r := Backend.aggregateSGPA subjs in
    4 <= Backend.sgpa r <= 10 /\
    4 <= Backend.maxSgpaIfAll100 r <= 10 /\
    (Forall (fun s => Backend.see s <= 100) subjs ->
     Backend.sgpa r <= Backend.maxSgpaIfAll100 r).
Proof.
  intros subjs Hcr Hnz r. subst r.
  destruct (aggregateSGPA_fields subjs) as (_ & Hs & Hm).
  rewrite Hs, Hm. clear Hs Hm.
  rewrite Forall_forall in Hcr.
  pose proof (reduce_sum_Qsum Backend.credits subjs) as Ec.
  pose proof (reduce_sum_Qsum (fun s => backend_gp s * Backend.credits s) subjs)
    as Ew.
  pose proof (reduce_sum_Qsum
                (fun s => backend_max_gp s * Backend.credits s) subjs) as Em.
  set (c := reduce_sum Backend.credits subjs) in *.
  set (w := reduce_sum (fun s => backend_gp s * Backend.credits s) subjs) in *.
  set (mw := reduce_sum (fun s => backend_max_gp s * Backend.credits s) subjs)
    in *.
  assert (Ht : Backend.truthy c = true)
    by (apply truthy_true; rewrite Ec; exact Hnz).
  rewrite Ht.
  destruct (Qsum_terms_bounds Backend.credits
              (fun s => backend_gp s * Backend.credits s) subjs)
    as (C0 & W4 & W10).
  { intros s Hs. pose proof (Hcr s Hs) as H0.
    pose proof (getGradePoint_range
                  (Backend.cie s + Backend.scaleSee (Backend.see s)))
      as [G4 G10].
    fold (backend_gp s) in G4, G10.
    assert (4 * Backend.credits s <= backend_gp s * Backend.credits s)
      by (apply Qmult_le_compat_r; assumption).
    assert (backend_gp s * Backend.credits s <= 10 * Backend.credits s)
      by (apply Qmult_le_compat_r; assumption).
    repeat split; assumption. }
  destruct (Qsum_terms_bounds Backend.credits
              (fun s => backend_max_gp s * Backend.credits s) subjs)
    as (_ & M4 & M10).
  { intros s Hs. pose proof (Hcr s Hs) as H0.
    pose proof (getGradePoint_range (Backend.cie s + Backend.scaleSee 100))
      as [G4 G10].
    fold (backend_max_gp s) in G4, G10.
    assert (4 * Backend.credits s <= backend_max_gp s * Backend.credits s)
      by (apply Qmult_le_compat_r; assumption).
    assert (backend_max_gp s * Backend.credits s <= 10 * Backend.credits s)
      by (apply Qmult_le_compat_r; assumption).
    repeat split; assumption. }
  assert (Hc0 : 0 <= c) by (rewrite Ec; exact C0).
  assert (Hcnz : ~ c == 0) by (rewrite Ec; exact Hnz).
  split; [|split].
  - apply ratio_on_scale; auto; rewrite Ec, Ew; assumption.
  - apply ratio_on_scale; auto; rewrite Ec, Em; assumption.
  - intros Hsee. rewrite Forall_forall in Hsee.
    rewrite !round2_roundTo. apply roundTo_mono.
    assert (Hpos : 0 < c).
    { destruct (Qlt_le_dec 0 c) as [H|H]; [exact H|].
      exfalso. apply Hcnz. lra. }
    unfold Qdiv. apply Qmult_le_compat_r.
    + rewrite Ew, Em. apply Qsum_terms_le. intros s Hs.
      apply Qmult_le_compat_r; [|apply Hcr, Hs].
      apply getGradePoint_mono.
      pose proof (scaleSee_mono _ _ (Hsee s Hs)). lra.
    + apply Qlt_le_weak, Qinv_lt_0_compat, Hpos.
Qed.

(** X17. [aggregateSGPA] stays on the grade scale: for subjects of
    non-negative credits whose credits do not sum to zero, whatever their
    marks, [sgpa] and [maxSgpaIfAll100] lie between [4] and [10], and when
    no SEE exceeds [100] the SGPA is at most [maxSgpaIfAll100]. *)
Theorem aggregateSGPA_on_scale :
  forall (subjs : list Backend.Subject),
    Forall (fun s => 0 <= Backend.credits s) subjs ->
    ~ Qsum (map Backend.credits subjs) == 0 ->
    let r := Backend.aggregateSGPA subjs in
    4 <= Backend.sgpa r <= 10 /\
    4 <= Backend.maxSgpaIfAll100 r <= 10 /\
    (Forall (fun s => Backend.see s <= 100) subjs ->
     Backend.sgpa r <= Backend.maxSgpaIfAll100 r).
Proof. exact aggregateSGPA_scale_bounds. Qed.

Lemma aggregateSGPA_on_scale_witness :
  4 <= Backend.sgpa (Backend.aggregateSGPA
                       [Backend.mkSubject 4 40 60; Backend.mkSubject 3 45 80])
    <= 10.
Proof.
  apply (aggregateSGPA_on_scale
           [Backend.mkSubject 4 40 60; Backend.mkSubject 3 45 80]).
  - repeat constructor; discriminate.
  - discriminate.
Defined.

Lemma semester_credits_nonneg (sem : Backend.Semester) :
  Forall (fun s => 0 <= Backend.credits s) (Backend.subjects sem) ->
  0 <= semester_credits sem.
Proof.
  intros H. unfold semester_credits.
  destruct (aggregateSGPA_fields (Backend.subjects sem)) as (-> & _).
  rewrite reduce_sum_Qsum. apply Qsum_nonneg. now rewrite Forall_map.
Qed.

Lemma semester_term_on_scale (sem : Backend.Semester) :
  Forall (fun s => 0 <= Backend.credits s) (Backend.subjects sem) ->
  4 * semester_credits sem <= semester_sgpa sem * semester_credits sem /\
  semester_sgpa sem * semester_credits sem <= 10 * semester_credits sem.
Proof.
  intros H. pose proof (semester_credits_nonneg sem H) as Hc.
  destruct (Qeq_dec (semester_credits sem) 0) as [Hz|Hnz].
  - rewrite Hz. split; lra.
  - assert (Hs : 4 <= semester_sgpa sem <= 10).
    { apply (aggregateSGPA_scale_bounds (Backend.subjects sem) H).
      unfold semester_credits in Hnz.
      destruct (aggregateSGPA_fields (Backend.subjects sem)) as (E & _).
      rewrite E, reduce_sum_Qsum in Hnz. exact Hnz. }
    destruct Hs as [H4 H10].
    split; apply Qmult_le_compat_r; assumption.
Qed.

(** X18. [aggregateCGPA] stays on the grade scale: when no subject has
    negative credits and the semesters' credits do not sum to zero, the
    CGPA lies between [4] and [10]. *)
Theorem aggregateCGPA_on_scale :
  forall (semesters : list Backend.Semester),
    Forall (fun sem => Forall (fun s => 0 <= Backend.credits s)
                              (Backend.subjects sem)) semesters ->
    ~ Qsum (map semester_credits semesters) == 0 ->
    4 <= Backend.cgpa (Backend.aggregateCGPA semesters) <= 10.
Proof.
  intros semesters Hcr Hnz.
  destruct (aggregateCGPA_sums semesters) as [Hc Hw].
  unfold Backend.aggregateCGPA; cbn [Backend.cgpa].
  assert (Ht : Backend.truthy
                 (reduce_sum Backend.b_credits
                    (map Backend.breakdownOf semesters)) = true).
  { apply truthy_true. rewrite Hc. exact Hnz. }
  rewrite Ht. rewrite Forall_forall in Hcr.
  destruct (Qsum_terms_bounds semester_credits
              (fun sem => semester_sgpa sem * semester_credits sem) semesters)
    as (C0 & W4 & W10).
  { intros sem Hsem. pose proof (Hcr sem Hsem) as H.
    pose proof (semester_credits_nonneg sem H).
    destruct (semester_term_on_scale sem H). repeat split; assumption. }
  apply ratio_on_scale; rewrite ?Hc, ?Hw; assumption.
Qed.

Lemma aggregateCGPA_on_scale_witness :
  4 <= Backend.cgpa (Backend.aggregateCGPA two_semesters) <= 10.
Proof.
  apply (aggregateCGPA_on_scale two_semesters).
  - repeat constructor; discriminate.
  - discriminate.
Defined.

(** ** The slider *)

Lemma is_int_clamp (maxv x : Q) :
  is_int maxv -> is_int x -> is_int (Qmax 0 (Qmin maxv x)).
Proof.
  intros Hm Hx.
  assert (Hmin : is_int (Qmin maxv x)).
  { destruct (Q.min_spec maxv x) as [[_ E]|[_ E]];
      [apply (is_int_comp maxv) | apply (is_int_comp x)];
      auto; symmetry; exact E. }
  destruct (Q.max_spec 0 (Qmin maxv x)) as [[_ E]|[_ E]].
  - apply (is_int_comp (Qmin maxv x)); [symmetry; exact E | exact Hmin].
  - apply (is_int_comp 0); [symmetry; exact E | exists 0%Z; reflexivity].
Qed.

(** X19. The mark [handleSeeChange] hands to [onSeeChange] lies in
    [0, maxSEE] whenever [maxSEE >= 0], whatever mark was requested, and is
    a whole number when [maxSEE] is one. *)
Theorem handleSeeChange_in_range :
  forall (cie : Q) (config : GradingConfig) (newSee : Q),
    0 <= maxSEE config ->
    0 <= handleSeeChange cie config newSee <= maxSEE config /\
    (is_int (maxSEE config) -> is_int (handleSeeChange cie config newSee)).
Proof.
  intros cie config newSee Hmax. unfold handleSeeChange. split.
  - apply clamp_range, Hmax.
  - intros Hint. apply is_int_clamp; [exact Hint|].
    unfold Math_round. apply is_int_inject.
Qed.

Lemma handleSeeChange_in_range_witness :
  0 <= handleSeeChange 40 DEFAULT_GRADING_CONFIG 150 <= 100.
Proof.
  apply (handleSeeChange_in_range 40 DEFAULT_GRADING_CONFIG 150).
  discriminate.
Defined.

Lemma near_marker_dec (newSee : Q) (c : CriticalSEE) :
  {near_marker newSee c} + {~ near_marker newSee c}.
Proof.
  unfold near_marker.
  destruct (reachable c); [|right; intros [H _]; discriminate H].
  destruct (Qlt_le_dec SNAP_THRESHOLD (Qabs (seeCrit c - newSee))) as [H|H].
  - right. intros [_ H']. apply (Qlt_not_le _ _ H), H'.
  - left. split; [reflexivity | exact H].
Qed.

Lemma snap_target_spec (criticalValues : list CriticalSEE) (newSee : Q) :
  (Forall (fun c => ~ near_marker newSee c) criticalValues /\
   snap_target criticalValues newSee = newSee) \/
  (exists l1 c l2,
      criticalValues = l1 ++ c :: l2 /\
      Forall (fun c => ~ near_marker newSee c) l1 /\
      near_marker newSee c /\
      snap_target criticalValues newSee = seeCrit c).
Proof.
  induction criticalValues as [|c rest IH]; cbn [snap_target].
  - left. split; [constructor | reflexivity].
  - assert (Hskip :
      ~ near_marker newSee c ->
      (Forall (fun c0 => ~ near_marker newSee c0) (c :: rest) /\
       snap_target rest newSee = newSee) \/
      (exists l1 c0 l2,
          c :: rest = l1 ++ c0 :: l2 /\
          Forall (fun c1 => ~ near_marker newSee c1) l1 /\
          near_marker newSee c0 /\
          snap_target rest newSee = seeCrit c0)).
    { intros Hn. destruct IH as [[Hall E]|(l1 & c0 & l2 & E & Hall & Hc0 & Et)].
      - left. split; [constructor; assumption | exact E].
      - right. exists (c :: l1), c0, l2. subst rest.
        repeat split; try apply Hc0; [constructor; assumption | exact Et]. }
    destruct (reachable c) eqn:Hr; cbn [negb].
    + destruct (Qle_bool (Qabs (seeCrit c - newSee)) SNAP_THRESHOLD) eqn:Hd.
      * right. exists [], c, rest. apply Qle_bool_iff in Hd.
        repeat split; [constructor | exact Hr | exact Hd].
      * apply Hskip. intros [_ H]. apply Qle_bool_iff in H.
        rewrite H in Hd. discriminate Hd.
    + apply Hskip. intros [H _]. rewrite Hr in H. discriminate H.
Qed.



Lemma Qabs_within (a b x : Q) :
  Qabs (a - x) <= 1 -> Qabs (b - x) <= 1 -> Qabs (a - b) <= 2.
Proof.
  intros Ha Hb. apply Qabs_Qle_condition in Ha, Hb.
  apply Qabs_Qle_condition. destruct Ha, Hb. split; lra.
Qed.

(** X21. The marks next to a marker cannot be chosen with the slider.
    When a reachable marker sits on a whole mark and every other reachable
    marker is more than two marks away, any request within one mark of it
    is answered with the marker's own SEE. *)
Theorem handleSeeChange_sticky_marker :
  forall (cie : Q) (config : GradingConfig) (c : CriticalSEE) (newSee : Q),
    0 <= maxSEE config ->
    In c (calculateCriticalSEEValues cie config) ->
    reachable c = true ->
    is_int (seeCrit c) ->
    markers_apart (calculateCriticalSEEValues cie config) c ->
    Qabs (seeCrit c - newSee) <= 1 ->
    handleSeeChange cie config newSee == seeCrit c.
Proof.
  intros cie config c newSee Hmax Hin Hr [z Hz] Hapart Hd.
  unfold handleSeeChange.
  destruct (snap_target_spec (calculateCriticalSEEValues cie config) newSee)
    as [[Hall E]|(l1 & c' & l2 & E & Hall & [Hr' Hd'] & Et)].
  - exfalso. rewrite Forall_forall in Hall.
    apply (Hall c Hin). split; assumption.
  - rewrite Et.
    assert (Hin' : In c' (calculateCriticalSEEValues cie config))
      by (rewrite E; apply in_elt).
    assert (Heq : seeCrit c' == seeCrit c).
    { destruct (Hapart c' Hin' Hr') as [H|H]; [exact H|].
      exfalso. apply (Qlt_not_le _ _ H).
      apply (Qabs_within _ _ newSee); assumption. }
    rewrite (Math_round_comp _ _ Heq), (Math_round_inject _ _ Hz), <- Hz.
    assert (Hrange : 0 <= seeCrit c <= maxSEE config).
    { destruct (critical_in _ _ _ Hin) as (b & _ & ->).
      cbn [seeCrit criticalOf]. apply clamp_range, Hmax. }
    apply clamp_id; apply Hrange.
Qed.

Lemma handleSeeChange_sticky_marker_witness :
  handleSeeChange 40 DEFAULT_GRADING_CONFIG 21
  == seeCrit (criticalOf 40 DEFAULT_GRADING_CONFIG (mkBucket 50 6 "B")).
Proof.
  apply (handleSeeChange_sticky_marker 40 DEFAULT_GRADING_CONFIG
           (criticalOf 40 DEFAULT_GRADING_CONFIG (mkBucket 50 6 "B")) 21).
  - discriminate.
  - vm_compute. tauto.
  - reflexivity.
  - exists 20%Z. reflexivity.
  - intros c' Hin Hr. vm_compute in Hin.
    repeat (destruct Hin as [<-|Hin];
            [first [discriminate Hr | left; reflexivity | right; reflexivity]|]).
    destruct Hin.
  - discriminate.
Defined.
